(** * golang-websockets: a small-step model of the broadcast server

    The development embeds the Go program (main.go, the server file with
    [onWsConnect], [broadcast], [addClientAndGreet], and the client file with
    [NewClient], [listen], [listenToWrite], [listenToRead]) as an executable
    transition system: one goroutine per accepted websocket connection
    (running [onWsConnect], hence the read loop), one goroutine per write
    loop, one goroutine per HTTP request on the "/broadcast/" route.
    A step of a goroutine is a function [State -> option State]; [None]
    means the goroutine cannot move (it is blocked on a channel, waits
    for a frame, or has ended).

    Statements are atomic steps, so that goroutines interleave between
    them.  A buffered channel is its buffer; the unbuffered [c.close] is
    used by the two loops of one connection only, so a send on it is a
    program counter of the sender, and the other loop receives by moving
    both.  The packages [websocket], [strings] and [net/http] are taken
    as their documentation describes them; [net/http] recovers a panic of
    a handler, which ends that request only. *)

From Stdlib Require Import Ascii.
From stdpp Require Import base option list strings.

(** ** Data (main.go and the client file) *)

(** main.go: [type Message struct { Author, Body string }]. *)
Record Message := mkMessage { Author : string; Body : string }.

(** Client file: [type Client struct { connection; ch; close }].  The three
    fields are references; they are modelled as handles into the stores
    of [State]. *)
Record Client := mkClient { connection : nat; ch : nat; close : nat }.

(** What one call of [websocket.JSON.Receive] yields: a decoded message
    and a nil error, [io.EOF], or another error ([partial] is whatever the
    decoder left in [msg]). *)
Inductive ReadResult :=
| RecvOk (m : Message)
| RecvEOF
| RecvErr (partial : Message).

(** A websocket connection: the frames the peer still has to deliver, the
    messages passed to [websocket.JSON.Send] so far, and the number of
    [Close] calls. *)
Record Conn := mkConn {
  incoming : list ReadResult;
  sent : list Message;
  closed : nat }.

(** A buffered [chan *Message]: content in FIFO order, and the capacity
    given to [make]. *)
Record Chan := mkChan { buf : list Message; cap : nat }.

(** Lines printed by [fmt.Printf] and [log.Println]. *)
Inductive LogLine :=
| LBroadcasting (m : Message)      (* "Broadcasting %+v" *)
| LListening                       (* "Listening read from client" *)
| LReceived (m : Message)          (* "Received: %+v" *)
| LSend (m : Message).             (* "Send:" *)

(** ** The request path (main.go, [readMsgFromRequest]) *)

(** [strings.Split(s, sep)] for a one-byte separator: the substrings
    between the occurrences of [sep]; a string without [sep] gives the
    one-element list. *)
Fixpoint Split (s : string) (sep : ascii) : list string :=
  match s with
  | EmptyString => [EmptyString]
  | String c s' =>
      if Ascii.eqb c sep then EmptyString :: Split s' sep
      else match Split s' sep with
           | p :: ps => String c p :: ps
           | [] => [String c EmptyString]
           end
  end.

(** [parts := strings.Split(r.URL.Path, "/"); return parts[2]].
    [None] is the run-time panic of an index out of range. *)
Definition readMsgFromRequest (path : string) : option string :=
  let parts := Split path "/"%char in
  parts !! 2.

(** ** Program state *)

(** Program counters of the goroutine running [broadcast]. *)
Inductive BPc :=
| BEnter                           (* line 19, before the Printf *)
| BRange (rest : list Client).     (* lines 20-22, clients still to visit *)

(** Program counters of the goroutine that serves one websocket
    connection; it runs [onWsConnect], and from there
    [addClientAndGreet], [listen] and [listenToRead]. *)
Inductive HPc :=
| HNew                             (* client := NewClient(ws) *)
| HArgs                            (* evaluate the argument [clients] *)
| HAppend (list : list Client)     (* clients = append(list, client) *)
| HGreet                           (* websocket.JSON.Send(.., Welcome!) *)
| HReturn                          (* return clients *)
| HAssign (ret : list Client)      (* clients = <returned value> *)
| HListen                          (* go c.listenToWrite() *)
| RLog                             (* log.Println("Listening ...") *)
| RSelect                          (* select at the top of the read loop *)
| RBroadcast (m : Message) (b : BPc)  (* inside broadcast(&msg) *)
| RSendEOF                         (* c.close <- true after io.EOF *)
| RAck                             (* c.close <- true in case <-c.close *)
| HDefer                           (* listen returned: deferred ws.Close() *)
| HDone.

(** Program counters of [listenToWrite]. *)
Inductive WPc :=
| WNotStarted
| WSelect                          (* select over c.ch and c.close *)
| WSend (m : Message)              (* websocket.JSON.Send(c.connection, msg) *)
| WAck                             (* reached c.close <- true *)
| WParked                          (* waiting in c.close <- true for a receiver *)
| WDone.

(** Program counters of [broadcastHandler]. *)
Inductive TPc :=
| TRead                            (* msg := readMsgFromRequest(r) *)
| TBroadcast (msg : string) (b : BPc)  (* broadcast(&Message{"Server", msg}) *)
| TRespond (msg : string)          (* fmt.Fprintf(w, "Broadcasting %v", msg) *)
| TDone
| TPanic.                          (* parts[2] out of range *)

(** The two goroutines of one connection.  [ws] is the argument of
    [onWsConnect], [client] its local variable (meaningful once [HNew]
    has run); [c] in both loops points to it. *)
Record Session := mkSession {
  ws : nat;
  client : Client;
  hpc : HPc;
  wpc : WPc }.

(** One request on the "/broadcast/" route: its URL path, where its
    handler is, and what was written to the ResponseWriter. *)
Record Request := mkRequest {
  path : string;
  tpc : TPc;
  response : string }.

(** The slice [clients] is modelled by the list of its elements:
    [append] gives a new list, and a [range] works on the elements that
    the slice had when the loop started.  The backing array that slice
    values of Go may share is not part of the state.  When registrations
    race, an [append] to a stale slice value can write into a slot of that
    array which a running [range] has not read yet; which client such a
    loop then finds in that slot is outside this model.  The program
    counter [BRange] lists the clients still to visit under this reading;
    the statements on a stuck client are phrased on its queue and on the
    entry a loop stands at, not on the entries it will find later. *)
Record State := mkState {
  clients : list Client;           (* main.go: var clients []Client *)
  conns : list Conn;               (* websocket connections, by handle *)
  chans : list Chan;               (* chan *Message values, by handle *)
  closes : nat;                    (* number of chan bool values made *)
  sessions : list Session;
  requests : list Request;
  console : list LogLine }.

Definition init : State := mkState [] [] [] 0 [] [] [].

Definition set_clients (l : list Client) (σ : State) : State :=
  mkState l (conns σ) (chans σ) (closes σ) (sessions σ) (requests σ) (console σ).
Definition set_conns (l : list Conn) (σ : State) : State :=
  mkState (clients σ) l (chans σ) (closes σ) (sessions σ) (requests σ) (console σ).
Definition set_chans (l : list Chan) (σ : State) : State :=
  mkState (clients σ) (conns σ) l (closes σ) (sessions σ) (requests σ) (console σ).
Definition set_sessions (l : list Session) (σ : State) : State :=
  mkState (clients σ) (conns σ) (chans σ) (closes σ) l (requests σ) (console σ).
Definition set_requests (l : list Request) (σ : State) : State :=
  mkState (clients σ) (conns σ) (chans σ) (closes σ) (sessions σ) l (console σ).
Definition print (ln : LogLine) (σ : State) : State :=
  mkState (clients σ) (conns σ) (chans σ) (closes σ) (sessions σ) (requests σ)
          (console σ ++ [ln]).

Definition set_pcs (i : nat) (s : Session) (h : HPc) (w : WPc) (σ : State) : State :=
  set_sessions (<[i := mkSession (ws s) (client s) h w]> (sessions σ)) σ.
Definition set_tpc (j : nat) (r : Request) (t : TPc) (σ : State) : State :=
  set_requests (<[j := mkRequest (path r) t (response r)]> (requests σ)) σ.

(** ** Channels and connections *)

(** [ch <- m] on a buffered channel: possible while the buffer has room;
    [None] when the sender has to wait. *)
Definition chan_send (id : nat) (m : Message) (chs : list Chan) : option (list Chan) :=
  q ← chs !! id;
  if decide (length (buf q) < cap q)
  then Some (<[id := mkChan (buf q ++ [m]) (cap q)]> chs)
  else None.

(** [<-ch]: possible while the buffer is not empty. *)
Definition chan_recv (id : nat) (chs : list Chan) : option (Message * list Chan) :=
  q ← chs !! id;
  match buf q with
  | [] => None
  | m :: b => Some (m, <[id := mkChan b (cap q)]> chs)
  end.

(** [websocket.JSON.Send(conn, m)]; the returned error is ignored by
    every caller. *)
Definition JSON_Send (id : nat) (m : Message) (cs : list Conn) : option (list Conn) :=
  cn ← cs !! id;
  Some (<[id := mkConn (incoming cn) (sent cn ++ [m]) (closed cn)]> cs).

(** [websocket.JSON.Receive(conn, &msg)]: waits ([None]) while no frame
    has arrived. *)
Definition JSON_Receive (id : nat) (cs : list Conn) : option (ReadResult * list Conn) :=
  cn ← cs !! id;
  match incoming cn with
  | [] => None
  | r :: rest => Some (r, <[id := mkConn rest (sent cn) (closed cn)]> cs)
  end.

Definition ws_Close (id : nat) (cs : list Conn) : option (list Conn) :=
  cn ← cs !! id;
  Some (<[id := mkConn (incoming cn) (sent cn) (S (closed cn))]> cs).

(** ** The server file *)

(** [NewClient(ws)]: [make(chan *Message, 100)], [make(chan bool)],
    [Client{ws, ch, close}]. *)
Definition NewClient (ws : nat) (σ : State) : Client * State :=
  let ch := length (chans σ) in
  let close := closes σ in
  (mkClient ws ch close,
   mkState (clients σ) (conns σ) (chans σ ++ [mkChan [] 100]) (S close)
           (sessions σ) (requests σ) (console σ)).

Definition greeting : Message := mkMessage "Server" "Welcome!".

(** One step of [broadcast(msg)].  The result is the next program
    counter ([None] once the function has returned) and the new state;
    the whole result is [None] while [c.ch <- msg] has to wait.  The
    entries of the range are those of [clients] at the entry of the loop
    (see [State] for what this leaves out). *)
Definition broadcast_step (m : Message) (b : BPc) (σ : State)
  : option (option BPc * State) :=
  match b with
  | BEnter => Some (Some (BRange (clients σ)), print (LBroadcasting m) σ)
  | BRange [] => Some (None, σ)
  | BRange (c :: rest) =>
      chs ← chan_send (ch c) m (chans σ);
      Some (Some (BRange rest), set_chans chs σ)
  end.

(** A sender is waiting in [c.close <- true] of the read loop. *)
Definition reader_sending (h : HPc) : bool :=
  match h with RSendEOF | RAck => true | _ => false end.

(** A sender is waiting in [c.close <- true] of the write loop. *)
Definition writer_sending (w : WPc) : bool :=
  match w with WParked => true | _ => false end.

(** Where the read loop continues once its [c.close <- true] went through. *)
Definition after_reader_send (h : HPc) : HPc :=
  match h with RAck => HDefer | _ => RSelect end.

Definition has_message (id : nat) (chs : list Chan) : bool :=
  match chs !! id with
  | Some q => match buf q with [] => false | _ => true end
  | None => false
  end.

(** One step of [addClientAndGreet(list, client)], called by the
    goroutine of connection [i]; [list] is held by the program counter. *)
Definition addClientAndGreet_step (i : nat) (s : Session) (σ : State) : option State :=
  match hpc s with
  | HAppend list =>
      Some (set_pcs i s HGreet (wpc s) (set_clients (list ++ [client s]) σ))
  | HGreet =>
      cs ← JSON_Send (connection (client s)) greeting (conns σ);
      Some (set_pcs i s HReturn (wpc s) (set_conns cs σ))
  | HReturn => Some (set_pcs i s (HAssign (clients σ)) (wpc s) σ)
  | _ => None
  end.

(** One step of [listenToRead] of connection [i], [broadcast] inlined. *)
Definition listenToRead_step (i : nat) (s : Session) (σ : State) : option State :=
  match hpc s with
  | RLog => Some (set_pcs i s RSelect (wpc s) (print LListening σ))
  | RSelect =>
      if writer_sending (wpc s)
      then (* case <-c.close: the write loop's send goes through and it returns *)
        Some (set_pcs i s RAck WDone σ)
      else (* default *)
        '(r, cs) ← JSON_Receive (connection (client s)) (conns σ);
        let σ1 := set_conns cs σ in
        match r with
        | RecvEOF =>
            Some (set_pcs i s RSendEOF (wpc s) (print (LReceived (mkMessage "" "")) σ1))
        | RecvErr p =>
            Some (set_pcs i s RSelect (wpc s) (print (LReceived p) σ1))
        | RecvOk m =>
            Some (set_pcs i s (RBroadcast m BEnter) (wpc s) (print (LReceived m) σ1))
        end
  | RBroadcast m b =>
      '(b', σ1) ← broadcast_step m b σ;
      Some (set_pcs i s (match b' with
                         | Some b1 => RBroadcast m b1
                         | None => RSelect
                         end) (wpc s) σ1)
  | RSendEOF | RAck =>
      (* c.close <- true: goes through in a step of the write loop *)
      None
  | _ => None
  end.

(** One step of [listen]: [go c.listenToWrite()], then [c.listenToRead()]. *)
Definition listen_step (i : nat) (s : Session) (σ : State) : option State :=
  match hpc s with
  | HListen => Some (set_pcs i s RLog WSelect σ)
  | _ => listenToRead_step i s σ
  end.

(** One step of the goroutine of connection [i], which runs
    [onWsConnect(ws)]. *)
Definition onWsConnect_step (i : nat) (σ : State) : option State :=
  s ← sessions σ !! i;
  match hpc s with
  | HNew =>
      let '(c, σ1) := NewClient (ws s) σ in
      Some (set_sessions (<[i := mkSession (ws s) c HArgs (wpc s)]> (sessions σ1)) σ1)
  | HArgs => Some (set_pcs i s (HAppend (clients σ)) (wpc s) σ)
  | HAppend _ | HGreet | HReturn => addClientAndGreet_step i s σ
  | HAssign ret => Some (set_pcs i s HListen (wpc s) (set_clients ret σ))
  | HListen | RLog | RSelect | RBroadcast _ _ | RSendEOF | RAck => listen_step i s σ
  | HDefer =>
      cs ← ws_Close (ws s) (conns σ);
      Some (set_pcs i s HDone (wpc s) (set_conns cs σ))
  | HDone => None
  end.

(** One step of [listenToWrite] of connection [i].  When both cases of
    its select are ready, [prefer_close] says which one the run-time
    picks. *)
Definition listenToWrite_step (i : nat) (prefer_close : bool) (σ : State)
  : option State :=
  s ← sessions σ !! i;
  match wpc s with
  | WNotStarted => None
  | WSelect =>
      if reader_sending (hpc s)
         && (prefer_close || negb (has_message (ch (client s)) (chans σ)))
      then (* case <-c.close *)
        Some (set_pcs i s (after_reader_send (hpc s)) WAck σ)
      else (* case msg := <-c.ch *)
        '(m, chs) ← chan_recv (ch (client s)) (chans σ);
        Some (set_pcs i s (hpc s) (WSend m) (print (LSend m) (set_chans chs σ)))
  | WSend m =>
      cs ← JSON_Send (connection (client s)) m (conns σ);
      Some (set_pcs i s (hpc s) WSelect (set_conns cs σ))
  | WAck => Some (set_pcs i s (hpc s) WParked σ)
  | WParked => None
  | WDone => None
  end.

(** ** main.go: the "/broadcast/" route *)

(** One step of [broadcastHandler] for request [j]. *)
Definition broadcastHandler_step (j : nat) (σ : State) : option State :=
  r ← requests σ !! j;
  match tpc r with
  | TRead =>
      match readMsgFromRequest (path r) with
      | Some msg => Some (set_tpc j r (TBroadcast msg BEnter) σ)
      | None => Some (set_tpc j r TPanic σ)
      end
  | TBroadcast msg b =>
      '(b', σ1) ← broadcast_step (mkMessage "Server" msg) b σ;
      Some (set_tpc j r (match b' with
                         | Some b1 => TBroadcast msg b1
                         | None => TRespond msg
                         end) σ1)
  | TRespond msg =>
      Some (set_requests
              (<[j := mkRequest (path r) TDone (response r +:+ "Broadcasting " +:+ msg)]>
                 (requests σ)) σ)
  | TDone => None
  | TPanic => None
  end.

(** ** The whole program *)

Inductive Action :=
| Accept (frames : list ReadResult)   (* a websocket client connects on /ws *)
| Get (path : string)                 (* a request arrives on /broadcast/ *)
| Handler (i : nat)                   (* the goroutine of connection i moves *)
| Writer (i : nat) (prefer_close : bool)
| Trigger (j : nat).                  (* the goroutine of request j moves *)

Definition step (a : Action) (σ : State) : option State :=
  match a with
  | Accept frames =>
      let id := length (conns σ) in
      Some (set_sessions (sessions σ ++ [mkSession id (mkClient 0 0 0) HNew WNotStarted])
              (set_conns (conns σ ++ [mkConn frames [] 0]) σ))
  | Get p => Some (set_requests (requests σ ++ [mkRequest p TRead ""]) σ)
  | Handler i => onWsConnect_step i σ
  | Writer i b => listenToWrite_step i b σ
  | Trigger j => broadcastHandler_step j σ
  end.

Fixpoint run (tr : list Action) (σ : State) : option State :=
  match tr with
  | [] => Some σ
  | a :: tr' => σ1 ← step a σ; run tr' σ1
  end.

(** [broadcast] run on its own for at most [n] steps: the program counter
    reached ([None] once it has returned) and the state; [None] when a
    send had to wait on the way. *)
Fixpoint broadcast_iter (n : nat) (m : Message) (b : BPc) (σ : State)
  : option (option BPc * State) :=
  match n with
  | 0 => Some (Some b, σ)
  | S n' =>
      '(b', σ1) ← broadcast_step m b σ;
      match b' with
      | Some b1 => broadcast_iter n' m b1 σ1
      | None => Some (None, σ1)
      end
  end.

(** [s] has no byte [sep]. *)
Fixpoint free_of (sep : ascii) (s : string) : bool :=
  match s with
  | EmptyString => true
  | String c s' => negb (Ascii.eqb c sep) && free_of sep s'
  end.

(** ** Predicates used in the statements *)

(** [addClientAndGreet] has sent the greeting. *)
Definition greeted (h : HPc) : bool :=
  match h with HNew | HArgs | HAppend _ | HGreet => false | _ => true end.

(** [listen] has started the write loop. *)
Definition listening (h : HPc) : bool :=
  match h with
  | HNew | HArgs | HAppend _ | HGreet | HReturn | HAssign _ | HListen => false
  | _ => true
  end.

(** The handler has executed [clients = append(list, client)]. *)
Definition appended (h : HPc) : bool :=
  match h with HNew | HArgs | HAppend _ => false | _ => true end.

(** What holds of connection [i], its goroutines and its websocket in
    every state the program reaches. *)
Record session_ok (i : nat) (s : Session) (cn : Conn) : Prop := {
  ok_ws : ws s = i;
  ok_conn : hpc s ≠ HNew → connection (client s) = i;
  ok_defer : hpc s ≠ HDefer;
  ok_done : hpc s ≠ HDone;
  ok_ack : hpc s = RAck → wpc s = WDone;
  ok_writer : listening (hpc s) = false → wpc s = WNotStarted;
  ok_first : greeted (hpc s) = false → sent cn = [];
  ok_only : greeted (hpc s) = true → listening (hpc s) = false → sent cn = [greeting];
  ok_sent : listening (hpc s) = true → ∃ rest, sent cn = greeting :: rest;
  ok_closed : closed cn = 0 }.

Definition bounded (q : Chan) : Prop := cap q = 100 ∧ length (buf q) ≤ 100.

Definition wf (σ : State) : Prop :=
  length (sessions σ) = length (conns σ) ∧
  Forall bounded (chans σ) ∧
  ∀ i s cn, sessions σ !! i = Some s → conns σ !! i = Some cn → session_ok i s cn.

(** The queue [q] after one more message. *)
Definition enqueue (m : Message) (q : Chan) : Chan := mkChan (buf q ++ [m]) (cap q).

(** [chs'] is [chs] after [m] was enqueued once on the queue of every
    client of [cs], and nothing else happened. *)
Definition delivered (m : Message) (cs : list Client) (chs chs' : list Chan) : Prop :=
  (∀ c q, c ∈ cs → chs !! ch c = Some q → chs' !! ch c = Some (enqueue m q)) ∧
  (∀ k, k ∉ ch <$> cs → chs' !! k = chs !! k).

(** Every queue of [cs] exists and has room for one more message. *)
Definition room (cs : list Client) (chs : list Chan) : Prop :=
  ∀ c, c ∈ cs → ∃ q, chs !! ch c = Some q ∧ length (buf q) < cap q.

(** No queue of a registered client is full. *)
Definition has_room (chs : list Chan) (c : Client) : bool :=
  match chs !! ch c with
  | Some q => bool_decide (length (buf q) < cap q)
  | None => true
  end.
Definition none_full (σ : State) : bool := forallb (has_room (chans σ)) (clients σ).


(** A list of clients as the registry holds them: no queue twice, and
    every entry is the client of a connection that has registered. *)
Definition listed (ss : list Session) (l : list Client) : Prop :=
  NoDup (ch <$> l) ∧
  ∀ c, c ∈ l → ∃ s, ss !! connection c = Some s ∧ client s = c ∧ appended (hpc s) = true.

Definition bpc_listed (ss : list Session) (b : BPc) : Prop :=
  match b with BRange l => listed ss l | BEnter => True end.

Definition hpc_listed (ss : list Session) (h : HPc) : Prop :=
  match h with
  | HAppend l | HAssign l => listed ss l
  | RBroadcast _ b => bpc_listed ss b
  | _ => True
  end.

Definition tpc_listed (ss : list Session) (t : TPc) : Prop :=
  match t with TBroadcast _ b => bpc_listed ss b | _ => True end.

(** What holds of the registry and of every copy of it that a goroutine
    holds, in every state the program reaches. *)
Definition reg (σ : State) : Prop :=
  listed (sessions σ) (clients σ) ∧
  (∀ i s, sessions σ !! i = Some s →
     hpc_listed (sessions σ) (hpc s) ∧
     (hpc s ≠ HNew → ch (client s) < length (chans σ))) ∧
  (∀ j r, requests σ !! j = Some r → tpc_listed (sessions σ) (tpc r)) ∧
  (∀ i j si sj, sessions σ !! i = Some si → sessions σ !! j = Some sj →
     hpc si ≠ HNew → hpc sj ≠ HNew → ch (client si) = ch (client sj) → i = j).

(** Registered connections stay registered, with the same client. *)
Definition keeps (ss ss' : list Session) : Prop :=
  ∀ k s, ss !! k = Some s → appended (hpc s) = true →
         ∃ s', ss' !! k = Some s' ∧ client s' = client s ∧ appended (hpc s') = true.

(** The two goroutines of a connection wait in [c.close <- true] for a
    receiver that cannot come: the read loop after it has received the
    acknowledgement of the write loop, which has returned; or both at
    once. *)
Definition stuck (s : Session) : bool :=
  match hpc s, wpc s with
  | RAck, WDone | RSendEOF, WParked => true
  | _, _ => false
  end.

(** ** Scenarios *)

(** Connection [i] runs from accept to the select of its read loop. *)
Definition connect (i : nat) : list Action := repeat (Handler i) 8.

(** A client connects and closes at once; both loops run the hand-off
    on [c.close] as far as it goes. *)
Definition eof_trace : list Action :=
  Accept [RecvEOF] :: connect 0 ++ [Handler 0; Writer 0 true; Writer 0 true; Handler 0].

(** Two clients listen; a hundred requests fill both queues while only
    the write loop of client 1 runs; one more request reaches the send
    loop of [broadcast]. *)
Definition listen2 : list Action :=
  [Accept []; Accept []] ++ connect 0 ++ connect 1.
Definition served (j : nat) : list Action :=
  Get "/broadcast/x" :: repeat (Trigger j) 6 ++ [Writer 1 false; Writer 1 false].
Definition slow_client : list Action :=
  listen2 ++ flat_map served (seq 0 100) ++ [Get "/broadcast/y"; Trigger 100; Trigger 100].

Definition msg_x : Message := mkMessage "Server" "x".
Definition msg_y : Message := mkMessage "Server" "y".
Definition msg_hi : Message := mkMessage "A" "hi".
Definition client0 : Client := mkClient 0 0 0.
Definition client1 : Client := mkClient 1 1 1.

(** A client connects and sends one message, resp. one undecodable frame. *)
Definition hi_trace : list Action := Accept [RecvOk msg_hi] :: connect 0.
Definition garbage_trace : list Action := Accept [RecvErr (mkMessage "A" "")] :: connect 0.

(** A client listens and a request with body "ping" arrives. *)
Definition ping_trace : list Action := Accept [] :: connect 0 ++ [Get "/broadcast/ping"].

(** ** Further predicates and scenarios *)

(** Number of occurrences of the byte [sep] in [s]. *)
Fixpoint count_sep (sep : ascii) (s : string) : nat :=
  match s with
  | EmptyString => 0
  | String c s' => (if Ascii.eqb c sep then 1 else 0) + count_sep sep s'
  end.

(** What holds of a request on the "/broadcast/" route in every state
    the program reaches. *)
Definition request_ok (r : Request) : Prop :=
  match tpc r with
  | TRead => response r = EmptyString
  | TBroadcast msg _ | TRespond msg =>
      readMsgFromRequest (path r) = Some msg ∧ response r = EmptyString
  | TDone =>
      ∃ msg, readMsgFromRequest (path r) = Some msg ∧
             response r = ("Broadcasting " +:+ msg)%string
  | TPanic => readMsgFromRequest (path r) = None ∧ response r = EmptyString
  end.

(** The write loop has taken the termination signal. *)
Definition signalled (w : WPc) : bool :=
  match w with WAck | WParked | WDone => true | _ => false end.

(** A hundred requests are served while the loops of the only client are
    stuck; one more reaches the send loop of [broadcast]. *)
Definition served_alone (j : nat) : list Action :=
  Get "/broadcast/x" :: repeat (Trigger j) 5.
Definition dead_client : list Action :=
  eof_trace ++ flat_map served_alone (seq 0 100)
            ++ [Get "/broadcast/y"; Trigger 100; Trigger 100].

(** Two connections register at the same time: both read [clients]
    before either assigns it. *)
Definition racing (i j : nat) : list Action :=
  [Handler i; Handler j;     (* both evaluate the argument [clients] *)
   Handler i; Handler j;     (* both assign append(list, client) *)
   Handler i; Handler j;     (* both greet *)
   Handler i; Handler j;     (* both read [clients] for the return *)
   Handler i; Handler j].    (* both assign the returned value *)

(** A client listens and two requests are served while its write loop
    does not run. *)
Definition queued_trace : list Action :=
  Accept [] :: connect 0 ++ served_alone 0 ++ served_alone 1.

(** Client 0 sends one message; client 1 listens. *)
Definition chat_trace : list Action :=
  [Accept [RecvOk msg_hi]; Accept []] ++ connect 0 ++ connect 1.


(** * Properties *)

(** ** Splitting the request path *)

Section SplitFacts.
Variable sep : ascii.

Lemma Split_nonempty s : Split s sep ≠ [].
Proof.
  destruct s as [|c s]; simpl; [done|].
  destruct (Ascii.eqb c sep); [done|]. by destruct (Split s sep).
Qed.

Lemma Split_free s : free_of sep s = true → Split s sep = [s].
Proof.
  induction s as [|c s IH]; simpl; [done|].
  intros [Hc Hs]%andb_prop. apply negb_true_iff in Hc. rewrite Hc, IH; done.
Qed.

Lemma Split_app a rest :
  free_of sep a = true →
  Split (a +:+ String sep rest) sep = a :: Split rest sep.
Proof.
  induction a as [|c a IH]; simpl.
  - intros _. by rewrite Ascii.eqb_refl.
  - intros [Hc Ha]%andb_prop. apply negb_true_iff in Hc. rewrite Hc, IH; done.
Qed.

Lemma Split_concat parts :
  parts ≠ [] →
  Forall (λ p, free_of sep p = true) parts →
  Split (String.concat (String sep EmptyString) parts) sep = parts.
Proof.
  induction parts as [|p [|p' ps] IH]; [done| |].
  - intros _ Hf. apply Forall_cons in Hf as [Hp _]. by apply Split_free.
  - intros _ Hf. apply Forall_cons in Hf as [Hp Hps].
    change (String.concat (String sep EmptyString) (p :: p' :: ps))
      with (p +:+ String sep (String.concat (String sep EmptyString) (p' :: ps))).
    rewrite Split_app by done. by rewrite IH.
Qed.

End SplitFacts.

Lemma readMsgFromRequest_prefix a b seg more :
  free_of "/" a = true → free_of "/" b = true → free_of "/" seg = true →
  Forall (λ p, free_of "/" p = true) more →
  readMsgFromRequest (String.concat "/" (a :: b :: seg :: more)) = Some seg.
Proof.
  intros Ha Hb Hseg Hmore. unfold readMsgFromRequest.
  rewrite Split_concat; [done|done|]. by repeat constructor.
Qed.

(** ** Runs and invariants *)

Lemma run_app tr1 tr2 σ : run (tr1 ++ tr2) σ = σ1 ← run tr1 σ; run tr2 σ1.
Proof.
  revert σ. induction tr1 as [|a tr1 IH]; intros σ; simpl; [done|].
  destruct (step a σ); simpl; [apply IH|done].
Qed.

Lemma run_cons a tr σ σ1 : step a σ = Some σ1 → run (a :: tr) σ = run tr σ1.
Proof. intros H. simpl. by rewrite H. Qed.

Lemma lookup_snoc {A} (l : list A) x : (l ++ [x]) !! length l = Some x.
Proof. by rewrite list_lookup_middle. Qed.

Lemma insert_snoc {A} (l : list A) x y : <[length l := y]> (l ++ [x]) = l ++ [y].
Proof. rewrite insert_app_r_alt by lia. by rewrite Nat.sub_diag. Qed.

Tactic Notation "unfold_handler" :=
  unfold onWsConnect_step, addClientAndGreet_step, listen_step, listenToRead_step.
Tactic Notation "unfold_handler" "in" hyp(H) :=
  unfold onWsConnect_step, addClientAndGreet_step, listen_step, listenToRead_step in H.

Lemma HNew_dec (h : HPc) : h = HNew ∨ h ≠ HNew.
Proof. destruct h; auto. Qed.

(** ** Channels *)

Lemma chan_send_full id m chs q :
  chs !! id = Some q → cap q ≤ length (buf q) → chan_send id m chs = None.
Proof. intros Hq Hfull. unfold chan_send. rewrite Hq; simpl. case_decide; [lia|done]. Qed.

Lemma chan_send_room id m chs q :
  chs !! id = Some q → length (buf q) < cap q →
  chan_send id m chs = Some (<[id := enqueue m q]> chs).
Proof. intros Hq Hroom. unfold chan_send. rewrite Hq; simpl. case_decide; [done|lia]. Qed.

Lemma chan_send_keeps_full id m chs chs' k q :
  chan_send id m chs = Some chs' →
  chs !! k = Some q → cap q ≤ length (buf q) →
  chs' !! k = Some q.
Proof.
  unfold chan_send. intros Hs Hk Hfull.
  destruct (chs !! id) as [q'|] eqn:E; simpl in Hs; [|done].
  case_decide; [|done]. injection Hs as <-.
  destruct (decide (id = k)) as [->|].
  - rewrite Hk in E. injection E as <-. lia.
  - by rewrite list_lookup_insert_ne.
Qed.

Lemma chan_send_length id m chs chs' :
  chan_send id m chs = Some chs' → length chs' = length chs.
Proof.
  unfold chan_send. intros H. destruct (chs !! id); simpl in H; [|done].
  case_decide; [|done]. injection H as <-. by rewrite length_insert.
Qed.

Lemma chan_recv_length id chs m chs' :
  chan_recv id chs = Some (m, chs') → length chs' = length chs.
Proof.
  unfold chan_recv. intros H. destruct (chs !! id) as [q|]; simpl in H; [|done].
  destruct (buf q); [done|]. injection H as <- <-. by rewrite length_insert.
Qed.

(** ** The invariant of connections *)

Lemma broadcast_step_frame m b σ b' σ' :
  broadcast_step m b σ = Some (b', σ') →
  clients σ' = clients σ ∧ conns σ' = conns σ ∧ closes σ' = closes σ ∧
  sessions σ' = sessions σ ∧ requests σ' = requests σ.
Proof.
  destruct b as [|[|c rest]]; simpl; intros H; simplify_option_eq; done.
Qed.

Lemma chan_send_bounded id m chs chs' :
  Forall bounded chs → chan_send id m chs = Some chs' → Forall bounded chs'.
Proof.
  unfold chan_send. intros Hb H. destruct (chs !! id) as [q|] eqn:E; simplify_option_eq.
  apply Forall_insert; [done|]. pose proof (Forall_lookup_1 _ _ _ _ Hb E) as [??].
  split; simpl; [done|]. rewrite length_app; simpl. lia.
Qed.

Lemma chan_recv_bounded id chs m chs' :
  Forall bounded chs → chan_recv id chs = Some (m, chs') → Forall bounded chs'.
Proof.
  unfold chan_recv. intros Hb H. destruct (chs !! id) as [q|] eqn:E; simplify_option_eq.
  destruct (buf q) as [|m' b] eqn:Eb; simplify_eq.
  apply Forall_insert; [done|]. pose proof (Forall_lookup_1 _ _ _ _ Hb E) as [??].
  split; simpl; [done|]. rewrite Eb in *; simpl in *. lia.
Qed.

Lemma broadcast_step_bounded m b σ b' σ' :
  Forall bounded (chans σ) → broadcast_step m b σ = Some (b', σ') →
  Forall bounded (chans σ').
Proof.
  destruct b as [|[|c rest]]; simpl; intros Hb H; simplify_option_eq; eauto using chan_send_bounded.
Qed.

Lemma wf_init : wf init.
Proof.
  split_and!; [done|constructor|]. intros i s cn H.
  unfold init in H; simpl in H. by rewrite lookup_nil in H.
Qed.

Lemma wf_accept frames σ :
  wf σ →
  wf (set_sessions (sessions σ ++ [mkSession (length (conns σ)) (mkClient 0 0 0) HNew WNotStarted])
        (set_conns (conns σ ++ [mkConn frames [] 0]) σ)).
Proof.
  intros (Hlen & Hb & Hs). split_and!; simpl; [rewrite !length_app; simpl; lia|done|].
  intros i s cn Hl1 Hl2.
  destruct (decide (i < length (sessions σ))).
  - rewrite lookup_app_l in Hl1 by done. rewrite lookup_app_l in Hl2 by lia. eauto.
  - rewrite lookup_app_r in Hl1 by lia. rewrite lookup_app_r in Hl2 by lia.
    rewrite Hlen in Hl1.
    destruct (i - length (conns σ)) as [|k] eqn:E; simpl in *; [|by rewrite lookup_nil in Hl1].
    simplify_eq. split; simpl; try done. lia.
Qed.

Lemma wf_update σ σ' i s' cn' :
  wf σ → i < length (sessions σ) →
  sessions σ' = <[i := s']> (sessions σ) →
  conns σ' = <[i := cn']> (conns σ) →
  Forall bounded (chans σ') →
  session_ok i s' cn' →
  wf σ'.
Proof.
  intros (Hlen & Hb & Hs) Hi Hs' Hc' Hb' Hok. split_and!; [|done|].
  - by rewrite Hs', Hc', !length_insert.
  - intros k s cn. rewrite Hs', Hc'. destruct (decide (k = i)) as [->|Hne].
    + rewrite !list_lookup_insert_eq by lia. by intros [= <-] [= <-].
    + rewrite !list_lookup_insert_ne by done. eauto.
Qed.

Lemma JSON_Send_Some id m cs cs' :
  JSON_Send id m cs = Some cs' →
  ∃ cn, cs !! id = Some cn ∧
        cs' = <[id := mkConn (incoming cn) (sent cn ++ [m]) (closed cn)]> cs.
Proof. unfold JSON_Send. intros H. destruct (cs !! id) as [cn|]; simplify_option_eq. eauto. Qed.

Lemma JSON_Receive_Some id cs r cs' :
  JSON_Receive id cs = Some (r, cs') →
  ∃ cn rest, cs !! id = Some cn ∧ incoming cn = r :: rest ∧
             cs' = <[id := mkConn rest (sent cn) (closed cn)]> cs.
Proof.
  unfold JSON_Receive. intros H. destruct (cs !! id) as [cn|]; simplify_option_eq.
  destruct (incoming cn) eqn:E; simplify_eq. eauto.
Qed.

Ltac wf_upd cn' :=
  eapply (wf_update _ _ _ _ cn');
  [ eassumption | done | reflexivity
  | simpl; first [reflexivity | by rewrite list_insert_id]
  | simpl; eauto using chan_recv_bounded
  | split; simpl; try done; try (intros; eauto; fail);
    try (let E := fresh in
         intros E;
         match goal with H : _ → _ = _ |- _ => apply H in E; discriminate E end) ].

Ltac use_trivial_premises :=
  repeat match goal with
         | H : ?a = ?a → _ |- _ => specialize (H eq_refl)
         | H : ?a ≠ ?b → _ |- _ => specialize (H ltac:(discriminate))
         | H : false = true → _ |- _ => clear H
         | H : true = false → _ |- _ => clear H
         end.

Lemma wf_step a σ σ' : wf σ → step a σ = Some σ' → wf σ'.
Proof.
  intros Hwf Hstep. pose proof Hwf as (Hlen & Hb & Hs).
  destruct a as [frames|p|i|i pc|j]; simpl in Hstep.
  - simplify_eq. by apply wf_accept.
  - simplify_eq. done.
  - unfold_handler in Hstep.
    destruct (sessions σ !! i) as [s|] eqn:Hi; simpl in Hstep; [|done].
    assert (i < length (sessions σ)) as Hlt by by eapply lookup_lt_Some.
    assert (is_Some (conns σ !! i)) as [cn Hcn].
    { apply lookup_lt_is_Some. by rewrite <-Hlen. }
    destruct (Hs i s cn Hi Hcn) as [Hws Hcon Hdef Hdone Hack Hwr Hfirst Honly Hsent Hclosed].
    destruct (hpc s) eqn:Hpc; simpl in *; use_trivial_premises.
    + injection Hstep as <-. wf_upd cn.
      apply Forall_app; split; [done|]. by repeat constructor.
    + injection Hstep as <-. wf_upd cn.
    + injection Hstep as <-. wf_upd cn.
    + destruct (JSON_Send _ _ _) as [cs|] eqn:E; simpl in Hstep; [|done].
      injection Hstep as <-. apply JSON_Send_Some in E as (cn' & Hcn' & ->).
      rewrite Hcon in *. rewrite Hcn in Hcn'. injection Hcn' as <-.
      wf_upd (mkConn (incoming cn) (sent cn ++ [greeting]) (closed cn)).
      intros _ _. by rewrite Hfirst.
    + injection Hstep as <-. wf_upd cn.
    + injection Hstep as <-. wf_upd cn.
    + injection Hstep as <-. wf_upd cn.
    + injection Hstep as <-. wf_upd cn.
    + destruct (writer_sending (wpc s)) eqn:Hw.
      { injection Hstep as <-. wf_upd cn. }
      destruct (JSON_Receive _ _) as [[r cs]|] eqn:E; simpl in Hstep; [|done];
        apply JSON_Receive_Some in E as (cn' & rest & Hcn' & Hin & ->);
        rewrite Hcon, Hcn in Hcn'; injection Hcn' as <-;
        destruct r; injection Hstep as <-; rewrite Hcon;
        wf_upd (mkConn rest (sent cn) (closed cn)).
    + destruct (broadcast_step _ _ _) as [[b' σ1]|] eqn:E; simpl in Hstep; [|done].
      injection Hstep as <-.
      pose proof (broadcast_step_bounded _ _ _ _ _ Hb E).
      apply broadcast_step_frame in E as (? & Hc1 & ? & Hs1 & ?).
      eapply (wf_update _ _ _ _ cn);
        [done|done|simpl; by rewrite Hs1|simpl; by rewrite Hc1, list_insert_id|done|].
      destruct b'; split; simpl; try done; try (intros; eauto; fail).
    + done.
    + done.
    + done.
    + done.
  - unfold listenToWrite_step in Hstep.
    destruct (sessions σ !! i) as [s|] eqn:Hi; simpl in Hstep; [|done].
    assert (i < length (sessions σ)) as Hlt by by eapply lookup_lt_Some.
    assert (is_Some (conns σ !! i)) as [cn Hcn].
    { apply lookup_lt_is_Some. by rewrite <-Hlen. }
    destruct (Hs i s cn Hi Hcn) as [Hws Hcon Hdef Hdone Hack Hwr Hfirst Honly Hsent Hclosed].
    destruct (wpc s) eqn:Hw; simpl in *; try done.
    + destruct (reader_sending (hpc s) && _) eqn:Hsel.
      * injection Hstep as <-. apply andb_prop in Hsel as [Hrs _].
        destruct (hpc s) eqn:Hpc; try done; simpl in *; use_trivial_premises; try done.
        wf_upd cn.
      * destruct (chan_recv _ _) as [[m chs]|] eqn:E; simpl in Hstep; [|done].
        injection Hstep as <-. wf_upd cn.
    + destruct (JSON_Send _ _ _) as [cs|] eqn:E; simpl in Hstep; [|done].
      injection Hstep as <-. apply JSON_Send_Some in E as (cn' & Hcn' & ->).
      assert (listening (hpc s) = true) as Hl.
      { destruct (listening (hpc s)); [done|]. by specialize (Hwr eq_refl). }
      assert (hpc s ≠ HNew) as Hn by (intros E; by rewrite E in Hl).
      rewrite Hcon in * by done. rewrite Hcn in Hcn'. injection Hcn' as <-.
      wf_upd (mkConn (incoming cn) (sent cn ++ [m]) (closed cn)).
      * intros E. destruct (hpc s); done.
      * intros _ E. by rewrite E in Hl.
      * intros _. destruct Hsent as [rest ->]; [done|]. by exists (rest ++ [m]).
    + injection Hstep as <-. wf_upd cn.
  - unfold broadcastHandler_step in Hstep.
    destruct (requests σ !! j) as [r|] eqn:Hj; simpl in Hstep; [|done].
    destruct (tpc r) eqn:Ht; simpl in Hstep; try done.
    + destruct (readMsgFromRequest _); by injection Hstep as <-.
    + destruct (broadcast_step _ _ _) as [[b' σ1]|] eqn:E; simpl in Hstep; [|done].
      injection Hstep as <-.
      pose proof (broadcast_step_bounded _ _ _ _ _ Hb E).
      apply broadcast_step_frame in E as (? & Hc1 & ? & Hs1 & ?).
      split_and!; simpl; [by rewrite Hs1, Hc1|done|by rewrite Hs1, Hc1].
    + by injection Hstep as <-.
Qed.
Lemma wf_run tr : ∀ σ0 σ, wf σ0 → run tr σ0 = Some σ → wf σ.
Proof.
  induction tr as [|a tr IH]; intros σ0 σ H0 Hrun; simpl in Hrun.
  - by simplify_eq.
  - destruct (step a σ0) as [σ1|] eqn:E; simpl in Hrun; [|done].
    eauto using wf_step.
Qed.

Lemma reachable_wf tr σ : run tr init = Some σ → wf σ.
Proof. apply wf_run, wf_init. Qed.

Lemma wf_session σ i s :
  wf σ → sessions σ !! i = Some s →
  ∃ cn, conns σ !! i = Some cn ∧ session_ok i s cn.
Proof.
  intros (Hlen & _ & Hs) Hi.
  assert (is_Some (conns σ !! i)) as [cn Hcn].
  { apply lookup_lt_is_Some. rewrite <-Hlen. by eapply lookup_lt_Some. }
  eauto.
Qed.

(** ** The invariant of the registry *)

Lemma listed_keeps ss ss' l : keeps ss ss' → listed ss l → listed ss' l.
Proof.
  intros Hk [Hnd Hown]. split; [done|]. intros c Hc.
  destruct (Hown c Hc) as (s & Hs & Hcl & Happ).
  destruct (Hk _ _ Hs Happ) as (s' & Hs' & Hcl' & Happ'). exists s'. split_and!; congruence.
Qed.

Lemma bpc_listed_keeps ss ss' b : keeps ss ss' → bpc_listed ss b → bpc_listed ss' b.
Proof. destruct b; simpl; eauto using listed_keeps. Qed.

Lemma hpc_listed_keeps ss ss' h : keeps ss ss' → hpc_listed ss h → hpc_listed ss' h.
Proof. destruct h; simpl; eauto using listed_keeps, bpc_listed_keeps. Qed.

Lemma tpc_listed_keeps ss ss' t : keeps ss ss' → tpc_listed ss t → tpc_listed ss' t.
Proof. destruct t; simpl; eauto using bpc_listed_keeps. Qed.

Lemma listed_tail ss c l : listed ss (c :: l) → listed ss l.
Proof.
  intros [Hnd Hown]. rewrite fmap_cons in Hnd. apply NoDup_cons in Hnd as [_ Hnd].
  split; [done|]. intros c' Hc'. apply Hown. by apply elem_of_cons; right.
Qed.

Lemma keeps_insert ss i s s' :
  ss !! i = Some s →
  (appended (hpc s) = true → client s' = client s ∧ appended (hpc s') = true) →
  keeps ss (<[i := s']> ss).
Proof.
  intros Hi Hs k sk Hk Happ. destruct (decide (k = i)) as [->|Hne].
  - rewrite Hi in Hk. injection Hk as <-. exists s'.
    rewrite list_lookup_insert_eq by by eapply lookup_lt_Some. destruct (Hs Happ). done.
  - exists sk. by rewrite list_lookup_insert_ne.
Qed.

Lemma keeps_snoc ss s : keeps ss (ss ++ [s]).
Proof.
  intros k sk Hk Happ. exists sk. split; [|done].
  rewrite lookup_app_l; [done|]. by eapply lookup_lt_Some.
Qed.

Lemma reg_init : reg init.
Proof.
  unfold reg, init; simpl. split_and!.
  - split; [constructor|]. intros c Hc. by apply elem_of_nil in Hc.
  - intros i s H. by rewrite lookup_nil in H.
  - intros i s H. by rewrite lookup_nil in H.
  - intros i j si sj H. by rewrite lookup_nil in H.
Qed.

(** The goroutines of connection [i] move from [s] to [s']. *)
Lemma reg_update σ σ' i s s' :
  reg σ →
  sessions σ !! i = Some s →
  sessions σ' = <[i := s']> (sessions σ) →
  requests σ' = requests σ →
  length (chans σ) ≤ length (chans σ') →
  (hpc s ≠ HNew → client s' = client s) →
  hpc s' ≠ HNew →
  (appended (hpc s) = true → appended (hpc s') = true) →
  (hpc s = HNew → ch (client s') = length (chans σ) ∧ length (chans σ) < length (chans σ')) →
  listed (sessions σ') (clients σ') →
  hpc_listed (sessions σ') (hpc s') →
  reg σ'.
Proof.
  intros (Hcl & Hss & Hrs & Hinj) Hi Hs' Hr' Hlen Hsame Hnew Happ Hfresh Hcl' Hl'.
  assert (keeps (sessions σ) (sessions σ')) as Hk.
  { rewrite Hs'. eapply keeps_insert; [done|]. intros Ha. split; [|auto].
    apply Hsame. intros E. by rewrite E in Ha. }
  assert (hpc s' ≠ HNew → ch (client s') < length (chans σ')) as Hlt'.
  { intros _. destruct (HNew_dec (hpc s)) as [E|E].
    - destruct (Hfresh E). lia.
    - rewrite Hsame by done. destruct (Hss i s Hi) as [_ Hlt]. specialize (Hlt E). lia. }
  split_and!; [done| | |].
  - intros k sk. rewrite Hs'. destruct (decide (k = i)) as [->|Hne].
    + rewrite list_lookup_insert_eq by by eapply lookup_lt_Some.
      intros [= <-]. rewrite <-Hs'. done.
    + rewrite list_lookup_insert_ne by done. intros Hk'.
      destruct (Hss k sk Hk') as [H1 H2]. rewrite <-Hs'. split; [by eapply hpc_listed_keeps|].
      intros E. specialize (H2 E). lia.
  - intros j r. rewrite Hr'. intros Hj. eapply tpc_listed_keeps; eauto.
  - assert (∀ k sk, k ≠ i → sessions σ !! k = Some sk → hpc sk ≠ HNew →
            ch (client s') ≠ ch (client sk)) as Hne'.
    { intros k sk Hne Hk' E. destruct (HNew_dec (hpc s)) as [En|En].
      - destruct (Hfresh En) as [-> _]. destruct (Hss k sk Hk') as [_ Hlt]. specialize (Hlt E). lia.
      - rewrite Hsame by done. intros Heq. apply Hne. symmetry. eapply Hinj; eauto. }
    intros k j sk sj. rewrite Hs'.
    destruct (decide (k = i)) as [->|Hki]; destruct (decide (j = i)) as [->|Hji]; [done| | |].
    + rewrite list_lookup_insert_eq by by eapply lookup_lt_Some.
      rewrite list_lookup_insert_ne by done. intros [= <-] Hj _ E Heq.
      by destruct (Hne' j sj Hji Hj E).
    + rewrite list_lookup_insert_ne by done.
      rewrite list_lookup_insert_eq by by eapply lookup_lt_Some.
      intros Hk' [= <-] E _ Heq. by destruct (Hne' k sk Hki Hk' E).
    + rewrite !list_lookup_insert_ne by done. eauto.
Qed.

Lemma broadcast_step_listed m b σ b' σ' :
  listed (sessions σ) (clients σ) →
  bpc_listed (sessions σ) b →
  broadcast_step m b σ = Some (b', σ') →
  length (chans σ') = length (chans σ) ∧
  match b' with Some b1 => bpc_listed (sessions σ) b1 | None => True end.
Proof.
  intros Hcl Hb H. destruct b as [|[|c rest]]; simpl in *.
  - by injection H as <- <-.
  - by injection H as <- <-.
  - destruct (chan_send _ _ _) as [chs|] eqn:E; simpl in H; [|done].
    injection H as <- <-. simpl. split; [by eapply chan_send_length|by eapply listed_tail].
Qed.

Lemma listed_snoc ss l c s :
  listed ss l →
  ss !! connection c = Some s → client s = c → appended (hpc s) = true →
  ch c ∉ ch <$> l →
  listed ss (l ++ [c]).
Proof.
  intros [Hnd Hown] Hs Hc Happ Hnin. split.
  - rewrite fmap_app. apply NoDup_app. split_and!; [done| |by apply NoDup_singleton].
    intros k Hk Hk'. simpl in Hk'. apply list_elem_of_singleton in Hk'. by subst.
  - intros c' [Hc'|Hc']%elem_of_app; [by apply Hown|].
    apply list_elem_of_singleton in Hc'. subst c'. eauto.
Qed.

Lemma reg_request σ σ' :
  reg σ →
  sessions σ' = sessions σ → clients σ' = clients σ →
  length (chans σ') = length (chans σ) →
  (∀ j r, requests σ' !! j = Some r → tpc_listed (sessions σ) (tpc r)) →
  reg σ'.
Proof.
  intros (Hcl & Hss & Hrs & Hinj) Hs Hc Hlen Hr. unfold reg. rewrite Hs, Hc, Hlen. done.
Qed.

Ltac reg_upd Hi Hpc :=
  eapply reg_update;
  [ eassumption | exact Hi | reflexivity | reflexivity
  | simpl; rewrite ?length_app; simpl; lia
  | rewrite Hpc; simpl; try done
  | simpl; try done
  | rewrite Hpc; simpl; try done
  | rewrite Hpc; simpl; try done;
    try (intros _; rewrite length_app; simpl; split; [done|lia])
  | simpl
  | simpl; try done ].

Ltac kept Hi Hpc :=
  eapply listed_keeps;
  [ eapply keeps_insert; [exact Hi | rewrite Hpc; simpl; try done; intros _; done]
  | try done ].

Lemma reg_step a σ σ' : wf σ → reg σ → step a σ = Some σ' → reg σ'.
Proof.
  intros Hwf Hreg Hstep. pose proof Hreg as (Hcl & Hss & Hrs & Hinj).
  destruct a as [frames|p|i|i pc|j]; simpl in Hstep.
  - injection Hstep as <-. unfold reg; simpl.
    set (s0 := mkSession (length (conns σ)) (mkClient 0 0 0) HNew WNotStarted).
    pose proof (keeps_snoc (sessions σ) s0) as Hk.
    assert (∀ k sk, (sessions σ ++ [s0]) !! k = Some sk →
            hpc sk ≠ HNew → sessions σ !! k = Some sk) as Hold.
    { intros k sk Hk' Hn. apply lookup_app_Some in Hk' as [?|[_ Hk']]; [done|].
      destruct (k - length (sessions σ)); simpl in Hk'; [|by rewrite lookup_nil in Hk'].
      by simplify_eq. }
    split_and!.
    + by eapply listed_keeps.
    + intros k sk Hk'. destruct (HNew_dec (hpc sk)) as [E|E]; [by rewrite E|].
      destruct (Hss k sk (Hold _ _ Hk' E)). split; [by eapply hpc_listed_keeps|done].
    + intros k r Hk'. eapply tpc_listed_keeps; eauto.
    + intros k j sk sj Hk' Hj Ek Ej. eauto.
  - injection Hstep as <-. eapply reg_request; [done..|]. simpl.
    intros j r Hj. apply lookup_app_Some in Hj as [?|[_ Hj]]; [eauto|].
    destruct (j - length (requests σ)); simpl in Hj; [|by rewrite lookup_nil in Hj].
    by simplify_eq.
  - unfold_handler in Hstep.
    destruct (sessions σ !! i) as [s|] eqn:Hi; simpl in Hstep; [|done].
    destruct (wf_session _ _ _ Hwf Hi) as (cn & Hcn & [Hws Hcon _ _ _ _ _ _ _ _]).
    destruct (Hss i s Hi) as [Hl Hlt].
    destruct (hpc s) eqn:Hpc; simpl in *.
    + injection Hstep as <-. reg_upd Hi Hpc. kept Hi Hpc.
    + injection Hstep as <-. reg_upd Hi Hpc; kept Hi Hpc.
    + injection Hstep as <-. reg_upd Hi Hpc.
      assert (keeps (sessions σ)
                (<[i:=mkSession (ws s) (client s) HGreet (wpc s)]> (sessions σ))) as Hk.
      { eapply keeps_insert; [exact Hi|]. by rewrite Hpc. }
      eapply listed_snoc.
      * by eapply listed_keeps.
      * rewrite Hcon by done. apply list_lookup_insert_eq. by eapply lookup_lt_Some.
      * done.
      * done.
      * intros (c & Hch & Hc)%list_elem_of_fmap. destruct Hl as [_ Hown].
        destruct (Hown c Hc) as (sc & Hsc & Hclc & Happ).
        assert (connection c = i) as Hci.
        { eapply Hinj; [exact Hsc|exact Hi| | |].
          - intros E. by rewrite E in Happ.
          - by rewrite Hpc.
          - by rewrite Hclc. }
        rewrite Hci, Hi in Hsc. injection Hsc as <-. by rewrite Hpc in Happ.
    + destruct (JSON_Send _ _ _) as [cs|]; simpl in Hstep; [|done].
      injection Hstep as <-. reg_upd Hi Hpc; kept Hi Hpc.
    + injection Hstep as <-. reg_upd Hi Hpc; kept Hi Hpc.
    + injection Hstep as <-. reg_upd Hi Hpc; kept Hi Hpc.
    + injection Hstep as <-. reg_upd Hi Hpc; kept Hi Hpc.
    + injection Hstep as <-. reg_upd Hi Hpc; kept Hi Hpc.
    + destruct (writer_sending (wpc s)).
      { injection Hstep as <-. reg_upd Hi Hpc; kept Hi Hpc. }
      destruct (JSON_Receive _ _) as [[r cs]|]; simpl in Hstep; [|done].
      destruct r; injection Hstep as <-; reg_upd Hi Hpc; kept Hi Hpc.
    + destruct (broadcast_step _ _ _) as [[b' σ1]|] eqn:E; simpl in Hstep; [|done].
      injection Hstep as <-.
      destruct (broadcast_step_listed _ _ _ _ _ Hcl Hl E) as [Hlen Hb'].
      apply broadcast_step_frame in E as (Hc1 & _ & _ & Hs1 & Hr1).
      assert (keeps (sessions σ)
                (<[i:=mkSession (ws s) (client s)
                        match b' with Some b1 => RBroadcast m b1 | None => RSelect end
                        (wpc s)]> (sessions σ))) as Hk.
      { eapply keeps_insert; [exact Hi|]. rewrite Hpc. by destruct b'. }
      eapply reg_update; [exact Hreg|exact Hi|simpl; by rewrite Hs1|simpl; by rewrite Hr1
                         |simpl; lia|done| | | | |].
      * by destruct b'.
      * by destruct b'.
      * by rewrite Hpc.
      * simpl. rewrite Hs1, Hc1. by eapply listed_keeps.
      * simpl. rewrite Hs1.
        destruct b' as [b1|]; simpl; [|done]. by eapply bpc_listed_keeps.
    + done.
    + done.
    + destruct (ws_Close _ _) as [cs|]; simpl in Hstep; [|done].
      injection Hstep as <-. reg_upd Hi Hpc; kept Hi Hpc.
    + done.
  - unfold listenToWrite_step in Hstep.
    destruct (sessions σ !! i) as [s|] eqn:Hi; simpl in Hstep; [|done].
    destruct (Hss i s Hi) as [Hl Hlt].
    assert (∀ h w, hpc_listed (sessions σ) h →
              (appended (hpc s) = true → appended h = true) → h ≠ HNew →
              hpc_listed (<[i:=mkSession (ws s) (client s) h w]> (sessions σ)) h ∧
              listed (<[i:=mkSession (ws s) (client s) h w]> (sessions σ)) (clients σ)) as Hkeep.
    { intros h w Hh Ha _.
      assert (keeps (sessions σ) (<[i:=mkSession (ws s) (client s) h w]> (sessions σ))) as Hk.
      { eapply keeps_insert; [exact Hi|]. auto. }
      split; [by eapply hpc_listed_keeps|by eapply listed_keeps]. }
    assert (∀ h w σ1,
              sessions σ1 = sessions σ → requests σ1 = requests σ → clients σ1 = clients σ →
              length (chans σ1) = length (chans σ) →
              hpc_listed (sessions σ) h →
              (appended (hpc s) = true → appended h = true) → h ≠ HNew →
              (hpc s = HNew → False) →
              reg (set_pcs i s h w σ1)) as Hupd.
    { intros h w σ1 Hs1 Hr1 Hc1 Hlen Hh Ha Hn Hnn.
      destruct (Hkeep h w Hh Ha Hn).
      eapply reg_update; [exact Hreg|exact Hi|simpl; by rewrite Hs1|simpl; by rewrite Hr1
                         |simpl; lia|done|done|done|done| |]; simpl; by rewrite Hs1, ?Hc1. }
    destruct (wf_session _ _ _ Hwf Hi) as (cn & Hcn & [_ _ _ _ _ Hwr _ _ _ _]).
    assert (wpc s ≠ WNotStarted → hpc s ≠ HNew) as Hstarted.
    { intros Hn E. apply Hn, Hwr. by rewrite E. }
    destruct (wpc s) eqn:Hw; simpl in Hstep; try done.
    + destruct (reader_sending (hpc s) && _) eqn:Hsel.
      * injection Hstep as <-. apply andb_prop in Hsel as [Hsend _].
        apply Hupd; try done; destruct (hpc s); done.
      * destruct (chan_recv _ _) as [[m chs]|] eqn:E; simpl in Hstep; [|done].
        injection Hstep as <-. apply chan_recv_length in E.
        apply Hupd; try done; auto; by apply Hstarted.
    + destruct (JSON_Send _ _ _) as [cs|]; simpl in Hstep; [|done].
      injection Hstep as <-. apply Hupd; try done; auto; by apply Hstarted.
    + injection Hstep as <-. apply Hupd; try done; auto; by apply Hstarted.
  - unfold broadcastHandler_step in Hstep.
    destruct (requests σ !! j) as [r|] eqn:Hj; simpl in Hstep; [|done].
    pose proof (Hrs j r Hj) as Hl.
    assert (∀ t σ1, sessions σ1 = sessions σ → clients σ1 = clients σ →
              requests σ1 = requests σ →
              length (chans σ1) = length (chans σ) →
              tpc_listed (sessions σ) t →
              reg (set_tpc j r t σ1)) as Hupd.
    { intros t σ1 Hs1 Hc1 Hr1 Hlen Ht. eapply reg_request; [exact Hreg|done..|].
      simpl. rewrite Hr1. intros k rk Hk. destruct (decide (k = j)) as [->|Hne].
      - rewrite list_lookup_insert_eq in Hk by by eapply lookup_lt_Some. by injection Hk as <-.
      - rewrite list_lookup_insert_ne in Hk by done. eauto. }
    destruct (tpc r) eqn:Ht; simpl in Hstep; try done.
    + destruct (readMsgFromRequest _); injection Hstep as <-; by apply Hupd.
    + destruct (broadcast_step _ _ _) as [[b' σ1]|] eqn:E; simpl in Hstep; [|done].
      injection Hstep as <-.
      destruct (broadcast_step_listed _ _ _ _ _ Hcl Hl E) as [Hlen Hb'].
      apply broadcast_step_frame in E as (Hc1 & _ & _ & Hs1 & Hr1).
      apply Hupd; try done. by destruct b'.
    + injection Hstep as <-.
      change (reg (set_requests (<[j := mkRequest (path r) TDone (response r +:+ "Broadcasting " +:+ msg)]> (requests σ)) σ)).
      eapply reg_request; [exact Hreg|done..|].
      simpl. intros k rk Hk. destruct (decide (k = j)) as [->|Hne].
      * rewrite list_lookup_insert_eq in Hk by by eapply lookup_lt_Some. by injection Hk as <-.
      * rewrite list_lookup_insert_ne in Hk by done. eauto.
Qed.

Lemma reg_run tr : ∀ σ0 σ, wf σ0 → reg σ0 → run tr σ0 = Some σ → reg σ.
Proof.
  induction tr as [|a tr IH]; intros σ0 σ Hwf Hreg Hrun; simpl in Hrun.
  - by simplify_eq.
  - destruct (step a σ0) as [σ1|] eqn:E; simpl in Hrun; [|done].
    eauto using wf_step, reg_step.
Qed.

Lemma reachable_registry tr σ : run tr init = Some σ → NoDup (ch <$> clients σ).
Proof. intros Hrun. by destruct (reg_run tr init σ wf_init reg_init Hrun) as ([? _] & _). Qed.


Lemma reachable_room tr σ :
  run tr init = Some σ → none_full σ = true → room (clients σ) (chans σ).
Proof.
  intros Hrun Hnf c Hc.
  destruct (reg_run tr init σ wf_init reg_init Hrun) as ([_ Hown] & Hss & _).
  destruct (Hown c Hc) as (s & Hs & Hcl & Happ).
  destruct (Hss _ _ Hs) as [_ Hlt].
  assert (is_Some (chans σ !! ch c)) as [q Hq].
  { apply lookup_lt_is_Some. rewrite <-Hcl. apply Hlt. intros E. by rewrite E in Happ. }
  exists q. split; [done|].
  unfold none_full in Hnf. rewrite forallb_forall in Hnf.
  apply list_elem_of_In, Hnf in Hc. unfold has_room in Hc. rewrite Hq in Hc.
  by apply bool_decide_eq_true in Hc.
Qed.

(** ** The send loop of broadcast *)

Lemma broadcast_iter_full n m front c rest σ q :
  chans σ !! ch c = Some q → cap q ≤ length (buf q) →
  ∀ σ', broadcast_iter n m (BRange (front ++ c :: rest)) σ ≠ Some (None, σ').
Proof.
  revert front σ. induction n as [|n IH]; intros front σ Hq Hfull σ'; [done|].
  destruct front as [|c' front]; simpl.
  - by rewrite (chan_send_full _ _ _ _ Hq Hfull).
  - destruct (chan_send (ch c') m (chans σ)) as [chs|] eqn:E; simpl; [|done].
    apply IH; [|done]. simpl. eauto using chan_send_keeps_full.
Qed.

Lemma delivered_nil m chs : delivered m [] chs chs.
Proof. split; [|done]. intros c q Hc. by apply elem_of_nil in Hc. Qed.

Lemma delivered_cons m c cs chs q chs' :
  chs !! ch c = Some q →
  ch c ∉ ch <$> cs →
  delivered m cs (<[ch c := enqueue m q]> chs) chs' →
  delivered m (c :: cs) chs chs'.
Proof.
  intros Hq Hnin [Hin Hout]. split.
  - intros c' q' [->|Hc']%elem_of_cons Hq'.
    + rewrite Hout by done. rewrite list_lookup_insert_eq by by eapply lookup_lt_Some.
      congruence.
    + apply Hin; [done|]. rewrite list_lookup_insert_ne; [done|].
      intros E. apply Hnin. rewrite E. by apply list_elem_of_fmap_2.
  - intros k Hk. rewrite fmap_cons in Hk. apply not_elem_of_cons in Hk as [Hne Hk].
    rewrite Hout by done. by rewrite list_lookup_insert_ne.
Qed.

Lemma room_tail m c cs chs q :
  NoDup (ch <$> c :: cs) → room (c :: cs) chs → chs !! ch c = Some q →
  room cs (<[ch c := enqueue m q]> chs).
Proof.
  intros Hnd Hroom Hq c' Hc'. rewrite fmap_cons in Hnd. apply NoDup_cons in Hnd as [Hnin _].
  destruct (Hroom c') as (q' & Hq' & Hlt); [by apply elem_of_cons; right|].
  exists q'. split; [|done]. rewrite list_lookup_insert_ne; [done|].
  intros E. apply Hnin. rewrite E. by apply list_elem_of_fmap_2.
Qed.

(** The send loop of [broadcast], run by the goroutine of request [j]. *)
Lemma trigger_range cs : ∀ σ j r msg,
  requests σ !! j = Some r →
  tpc r = TBroadcast msg (BRange cs) →
  NoDup (ch <$> cs) → room cs (chans σ) →
  ∃ chs', run (repeat (Trigger j) (S (length cs))) σ
          = Some (set_tpc j r (TRespond msg) (set_chans chs' σ)) ∧
          delivered (mkMessage "Server" msg) cs (chans σ) chs'.
Proof.
  induction cs as [|c cs IH]; intros σ j r msg Hj Ht Hnd Hroom.
  - exists (chans σ). split; [|apply delivered_nil].
    simpl. unfold broadcastHandler_step. rewrite Hj; simpl. rewrite Ht; simpl.
    by destruct σ.
  - destruct (Hroom c) as (q & Hq & Hlt); [by apply elem_of_cons; left|].
    set (σ1 := set_tpc j r (TBroadcast msg (BRange cs))
                 (set_chans (<[ch c := enqueue (mkMessage "Server" msg) q]> (chans σ)) σ)).
    destruct (IH σ1 j (mkRequest (path r) (TBroadcast msg (BRange cs)) (response r)) msg)
      as (chs' & Hrun & Hdel).
    + simpl. apply list_lookup_insert_eq. by eapply lookup_lt_Some.
    + done.
    + rewrite fmap_cons in Hnd. by apply NoDup_cons in Hnd as [_ ?].
    + simpl. by eapply room_tail.
    + exists chs'. split.
      * assert (step (Trigger j) σ = Some σ1) as Hstep.
        { simpl. unfold broadcastHandler_step. rewrite Hj; simpl. rewrite Ht; simpl.
          by rewrite (chan_send_room _ _ _ _ Hq Hlt). }
        change (repeat (Trigger j) (S (length (c :: cs))))
          with (Trigger j :: repeat (Trigger j) (S (length cs))).
        rewrite (run_cons _ _ _ _ Hstep), Hrun.
        unfold σ1, set_tpc, set_chans, set_requests; simpl.
        by rewrite list_insert_insert_eq.
      * simpl in Hdel. rewrite fmap_cons in Hnd. apply NoDup_cons in Hnd as [Hnin _].
        by eapply delivered_cons.
Qed.

(** The same loop, run by the read loop of connection [i]. *)
Lemma handler_range cs : ∀ σ i s m,
  sessions σ !! i = Some s →
  hpc s = RBroadcast m (BRange cs) →
  NoDup (ch <$> cs) → room cs (chans σ) →
  ∃ chs', run (repeat (Handler i) (S (length cs))) σ
          = Some (set_pcs i s RSelect (wpc s) (set_chans chs' σ)) ∧
          delivered m cs (chans σ) chs'.
Proof.
  induction cs as [|c cs IH]; intros σ i s m Hi Hpc Hnd Hroom.
  - exists (chans σ). split; [|apply delivered_nil].
    simpl. unfold_handler. rewrite Hi; simpl. rewrite Hpc; simpl.
    by destruct σ.
  - destruct (Hroom c) as (q & Hq & Hlt); [by apply elem_of_cons; left|].
    set (σ1 := set_pcs i s (RBroadcast m (BRange cs)) (wpc s)
                 (set_chans (<[ch c := enqueue m q]> (chans σ)) σ)).
    destruct (IH σ1 i (mkSession (ws s) (client s) (RBroadcast m (BRange cs)) (wpc s)) m)
      as (chs' & Hrun & Hdel).
    + simpl. apply list_lookup_insert_eq. by eapply lookup_lt_Some.
    + done.
    + rewrite fmap_cons in Hnd. by apply NoDup_cons in Hnd as [_ ?].
    + simpl. by eapply room_tail.
    + exists chs'. split.
      * assert (step (Handler i) σ = Some σ1) as Hstep.
        { simpl. unfold_handler. rewrite Hi; simpl. rewrite Hpc; simpl.
          by rewrite (chan_send_room _ _ _ _ Hq Hlt). }
        change (repeat (Handler i) (S (length (c :: cs))))
          with (Handler i :: repeat (Handler i) (S (length cs))).
        rewrite (run_cons _ _ _ _ Hstep), Hrun.
        unfold σ1, set_pcs, set_chans, set_sessions; simpl.
        by rewrite list_insert_insert_eq.
      * simpl in Hdel. rewrite fmap_cons in Hnd. apply NoDup_cons in Hnd as [Hnin _].
        by eapply delivered_cons.
Qed.


(** * The claims *)

(** ** Broadcast and full queues *)

(** C1, amended.  [broadcast] sends with a plain [c.ch <- msg]: while
    the queue of a client is full the send does not go through, nothing
    is dropped, and the clients after it in the registry are not reached
    ([broadcast] run on its own never returns); when the queue has room
    the message is enqueued and the loop moves on. *)
Theorem broadcast_blocks_on_full σ m c rest q :
  chans σ !! ch c = Some q →
  (cap q ≤ length (buf q) →
   broadcast_step m (BRange (c :: rest)) σ = None ∧
   ∀ front n σ', broadcast_iter n m (BRange (front ++ c :: rest)) σ ≠ Some (None, σ')) ∧
  (length (buf q) < cap q →
   broadcast_step m (BRange (c :: rest)) σ
   = Some (Some (BRange rest), set_chans (<[ch c := enqueue m q]> (chans σ)) σ)).
Proof.
  intros Hq. split.
  - intros Hfull. split.
    + simpl. by rewrite (chan_send_full _ _ _ _ Hq Hfull).
    + intros front n. by eapply broadcast_iter_full.
  - intros Hroom. simpl. by rewrite (chan_send_room _ _ _ _ Hq Hroom).
Qed.

Lemma broadcast_blocks_on_full_witness :
  broadcast_step msg_y (BRange [client0; client1])
    (mkState [client0; client1] [] [mkChan (replicate 100 msg_x) 100; mkChan [] 100] 2 [] [] [])
  = None.
Proof.
  refine (proj1 (proj1 (broadcast_blocks_on_full
            (mkState [client0; client1] [] [mkChan (replicate 100 msg_x) 100; mkChan [] 100]
                     2 [] [] [])
            msg_y client0 [client1] (mkChan (replicate 100 msg_x) 100) eq_refl) _)).
  vm_compute. lia.
Defined.

(** C1 as stated fails: with the queue of client 0 full and the queue of
    client 1 empty, the goroutine of the request inside [broadcast]
    cannot move, client 1 has not received the message, and once the
    write loop of client 0 takes one message off its queue the broadcast
    goes on and client 0 does get the message. *)
Lemma broadcast_waits_for_slow_client :
  ∃ σ σ', run slow_client init = Some σ ∧
    clients σ = [client0; client1] ∧
    chans σ = [mkChan (replicate 100 msg_x) 100; mkChan [] 100] ∧
    requests σ !! 100
    = Some (mkRequest "/broadcast/y" (TBroadcast "y" (BRange [client0; client1])) "") ∧
    step (Trigger 100) σ = None ∧
    run [Writer 0 false; Trigger 100; Trigger 100] σ = Some σ' ∧
    chans σ' = [mkChan (replicate 99 msg_x ++ [msg_y]) 100; mkChan [msg_y] 100].
Proof. eexists _, _. vm_compute. split_and!; reflexivity. Qed.

(** ** Disconnecting *)

(** What a step does to the list of goroutines of connections. *)
Lemma step_sessions a σ σ' :
  step a σ = Some σ' →
  match a with
  | Accept _ => ∃ s0, sessions σ' = sessions σ ++ [s0]
  | Get _ | Trigger _ => sessions σ' = sessions σ
  | Handler j | Writer j _ => ∃ s', sessions σ' = <[j := s']> (sessions σ)
  end.
Proof.
  intros Hstep. destruct a as [frames|p|i|i pc|j]; simpl in *.
  - injection Hstep as <-. simpl. eauto.
  - by injection Hstep as <-.
  - unfold_handler in Hstep.
    destruct (sessions σ !! i) as [s|]; simpl in Hstep; [|done].
    destruct (hpc s); simpl in Hstep; try done;
      try (injection Hstep as <-; simpl; eauto; fail).
    + destruct (JSON_Send _ _ _); [injection Hstep as <-; simpl; eauto|done].
    + destruct (writer_sending (wpc s)); [injection Hstep as <-; simpl; eauto|].
      destruct (JSON_Receive _ _) as [[[] ?]|]; [injection Hstep as <-; simpl; eauto..|done].
    + destruct (broadcast_step _ _ _) as [[b' σ1]|] eqn:E; simpl in Hstep; [|done].
      injection Hstep as <-. simpl.
      apply broadcast_step_frame in E as (_ & _ & _ & -> & _). eauto.
    + destruct (ws_Close _ _); [injection Hstep as <-; simpl; eauto|done].
  - unfold listenToWrite_step in Hstep.
    destruct (sessions σ !! i) as [s|]; simpl in Hstep; [|done].
    destruct (wpc s); simpl in Hstep; try done.
    + destruct (_ && _); [injection Hstep as <-; simpl; eauto|].
      destruct (chan_recv _ _) as [[m chs]|]; [injection Hstep as <-; simpl; eauto|done].
    + destruct (JSON_Send _ _ _); [injection Hstep as <-; simpl; eauto|done].
    + injection Hstep as <-; simpl; eauto.
  - unfold broadcastHandler_step in Hstep.
    destruct (requests σ !! j) as [r|]; simpl in Hstep; [|done].
    destruct (tpc r); simpl in Hstep; try done.
    + destruct (readMsgFromRequest _); by injection Hstep as <-.
    + destruct (broadcast_step _ _ _) as [[b' σ1]|] eqn:E; simpl in Hstep; [|done].
      injection Hstep as <-. simpl. by apply broadcast_step_frame in E as (_ & _ & _ & -> & _).
    + by injection Hstep as <-.
Qed.

Lemma stuck_step a σ σ' i s :
  sessions σ !! i = Some s → stuck s = true →
  step a σ = Some σ' → sessions σ' !! i = Some s.
Proof.
  intros Hi Hst Hstep. pose proof (step_sessions _ _ _ Hstep) as Hss.
  destruct a as [frames|p|j|j pc|j].
  - destruct Hss as [s0 ->]. rewrite lookup_app_l; [done|]. by eapply lookup_lt_Some.
  - by rewrite Hss.
  - destruct Hss as [s' ->]. destruct (decide (j = i)) as [->|Hne].
    + exfalso. simpl in Hstep. unfold_handler in Hstep. rewrite Hi in Hstep; simpl in Hstep.
      unfold stuck in Hst. destruct (hpc s); try done.
    + by rewrite list_lookup_insert_ne.
  - destruct Hss as [s' ->]. destruct (decide (j = i)) as [->|Hne].
    + exfalso. simpl in Hstep. unfold listenToWrite_step in Hstep.
      rewrite Hi in Hstep; simpl in Hstep.
      unfold stuck in Hst. destruct (hpc s); try done; destruct (wpc s); done.
    + by rewrite list_lookup_insert_ne.
  - by rewrite Hss.
Qed.

Lemma stuck_forever tr : ∀ σ σ' i s,
  sessions σ !! i = Some s → stuck s = true →
  run tr σ = Some σ' → sessions σ' !! i = Some s.
Proof.
  induction tr as [|a tr IH]; intros σ σ' i s Hi Hst Hrun; simpl in Hrun.
  - by simplify_eq.
  - destruct (step a σ) as [σ1|] eqn:E; simpl in Hrun; [|done].
    eauto using stuck_step.
Qed.

(** C3, as the code has it.  In every state the program reaches, no
    read loop has returned: [listen] and [onWsConnect] never return.
    A read loop that has received on [c.close] finds the write loop
    gone; from then on, and also when both loops wait in
    [c.close <- true], neither goroutine of the connection can move, in
    this state and in every state that follows. *)
Theorem listenToRead_never_returns tr σ i s :
  run tr init = Some σ →
  sessions σ !! i = Some s →
  hpc s ≠ HDefer ∧ hpc s ≠ HDone ∧
  (hpc s = RAck → wpc s = WDone) ∧
  (stuck s = true →
   step (Handler i) σ = None ∧ (∀ b, step (Writer i b) σ = None) ∧
   ∀ tr' σ', run tr' σ = Some σ' → sessions σ' !! i = Some s).
Proof.
  intros Hrun Hi. apply reachable_wf in Hrun.
  destruct (wf_session _ _ _ Hrun Hi) as (cn & Hcn & [? ? ? ? Hack ? ? ? ? ?]).
  split_and!; try done.
  intros Hst. split_and!.
  - simpl. unfold_handler. rewrite Hi; simpl.
    unfold stuck in Hst. by destruct (hpc s).
  - intros b. simpl. unfold listenToWrite_step. rewrite Hi; simpl.
    unfold stuck in Hst. destruct (hpc s); try done; by destruct (wpc s).
  - intros tr' σ'. by apply stuck_forever.
Qed.

Lemma listenToRead_never_returns_witness :
  ∃ σ, run eof_trace init = Some σ ∧
       ∃ s, sessions σ !! 0 = Some s ∧ hpc s = RAck ∧ wpc s = WDone ∧
            step (Handler 0) σ = None ∧ (∀ b, step (Writer 0 b) σ = None) ∧
            ∀ tr' σ', run tr' σ = Some σ' → sessions σ' !! 0 = Some s.
Proof.
  eexists. split; [vm_compute; reflexivity|].
  eexists. split; [reflexivity|]. split; [reflexivity|]. split; [reflexivity|].
  eapply (listenToRead_never_returns eof_trace); [vm_compute; reflexivity|reflexivity|reflexivity].
Defined.





(** ** Connecting *)

(** C9.  [NewClient] makes an empty queue of capacity 100 and a fresh
    [close] channel, and touches neither the connection nor anything
    else; and in every state the program reaches every queue has
    capacity 100 and holds at most 100 messages. *)
Theorem NewClient_queue tr σ ws0 :
  run tr init = Some σ →
  Forall bounded (chans σ) ∧
  ∃ c σ', NewClient ws0 σ = (c, σ') ∧
    connection c = ws0 ∧
    chans σ !! ch c = None ∧
    chans σ' = chans σ ++ [mkChan [] 100] ∧
    chans σ' !! ch c = Some (mkChan [] 100) ∧
    close c = closes σ ∧ closes σ' = S (closes σ) ∧
    conns σ' = conns σ ∧ clients σ' = clients σ ∧
    sessions σ' = sessions σ ∧ requests σ' = requests σ ∧ console σ' = console σ.
Proof.
  intros Hrun. apply reachable_wf in Hrun as (_ & Hb & _). split; [done|].
  eexists _, _. split; [reflexivity|]. simpl. split_and!; try done.
  - by apply lookup_ge_None.
  - by rewrite list_lookup_middle.
Qed.

Lemma NewClient_queue_witness :
  Forall bounded (chans init) ∧
  ∃ c σ', NewClient 0 init = (c, σ') ∧
    connection c = 0 ∧
    chans init !! ch c = None ∧
    chans σ' = chans init ++ [mkChan [] 100] ∧
    chans σ' !! ch c = Some (mkChan [] 100) ∧
    close c = closes init ∧ closes σ' = S (closes init) ∧
    conns σ' = conns init ∧ clients σ' = clients init ∧
    sessions σ' = sessions init ∧ requests σ' = requests init ∧ console σ' = console init.
Proof. apply (NewClient_queue [] init 0). reflexivity. Defined.

(** C4.  In every state the program reaches: nothing is written to a
    connection before the greeting, the greeting is the only message on
    it until [listen] starts the write loop, and it stays the first one.
    Run on its own, the entry point turns a fresh connection into a
    client appended to the registry, with an empty queue, and with the
    greeting as the only message sent; no other connection and no queue
    receives anything. *)
Theorem greeting_first tr σ :
  run tr init = Some σ →
  (∀ i s cn, sessions σ !! i = Some s → conns σ !! ws s = Some cn →
     (greeted (hpc s) = false → sent cn = [] ∧ wpc s = WNotStarted) ∧
     (greeted (hpc s) = true → listening (hpc s) = false →
      sent cn = [greeting] ∧ wpc s = WNotStarted) ∧
     (listening (hpc s) = true → ∃ rest, sent cn = greeting :: rest)) ∧
  (∀ frames,
     let c := mkClient (length (conns σ)) (length (chans σ)) (closes σ) in
     run (Accept frames :: repeat (Handler (length (sessions σ))) 4) σ
     = Some (mkState (clients σ ++ [c])
                     (conns σ ++ [mkConn frames [greeting] 0])
                     (chans σ ++ [mkChan [] 100])
                     (S (closes σ))
                     (sessions σ ++ [mkSession (length (conns σ)) c HReturn WNotStarted])
                     (requests σ) (console σ))).
Proof.
  intros Hrun. apply reachable_wf in Hrun. split.
  - intros i s cn Hi Hcn.
    destruct (wf_session _ _ _ Hrun Hi) as (cn' & Hcn' & [Hws ? ? ? ? Hwr Hfirst Honly Hsent ?]).
    rewrite Hws, Hcn' in Hcn. injection Hcn as <-.
    split_and!; [| |done].
    + intros Hg. split; [auto|]. apply Hwr. by destruct (hpc s).
    + intros Hg Hl. auto.
  - intros frames c. cbn [run step]. simpl.
    unfold_handler; simpl. rewrite lookup_snoc; simpl. rewrite insert_snoc.
    unfold_handler; simpl. rewrite lookup_snoc; simpl.
    unfold set_pcs; simpl. rewrite insert_snoc.
    unfold_handler; simpl. rewrite lookup_snoc; simpl.
    unfold set_pcs; simpl. rewrite insert_snoc.
    unfold_handler; simpl. rewrite lookup_snoc; simpl.
    unfold JSON_Send. rewrite lookup_snoc; simpl.
    unfold set_pcs; simpl. rewrite !insert_snoc. done.
Qed.

Lemma greeting_first_witness :
  run (Accept [] :: repeat (Handler 0) 4) init
  = Some (mkState [client0] [mkConn [] [greeting] 0] [mkChan [] 100] 1
                  [mkSession 0 client0 HReturn WNotStarted] [] []).
Proof. exact (proj2 (greeting_first [] init eq_refl) []). Defined.

(** ** The read loop *)

(** C8.  On an error other than [io.EOF] the read loop prints its
    "Received" line and is back at its select: the frame is consumed,
    nothing is broadcast (no queue, no registry change), and both
    goroutines of the connection are where they were. *)
Theorem read_error_is_swallowed σ i s cn p rest :
  sessions σ !! i = Some s →
  hpc s = RSelect →
  wpc s ≠ WParked →
  conns σ !! connection (client s) = Some cn →
  incoming cn = RecvErr p :: rest →
  step (Handler i) σ
  = Some (mkState (clients σ)
                  (<[connection (client s) := mkConn rest (sent cn) (closed cn)]> (conns σ))
                  (chans σ) (closes σ) (sessions σ) (requests σ)
                  (console σ ++ [LReceived p])).
Proof.
  intros Hi Hpc Hw Hcn Hin. simpl. unfold_handler. rewrite Hi; simpl. rewrite Hpc.
  unfold JSON_Receive. rewrite Hcn; simpl. rewrite Hin; simpl.
  assert (mkSession (ws s) (client s) RSelect (wpc s) = s) as Hs.
  { destruct s; simpl in *; by subst. }
  assert (writer_sending (wpc s) = false) as -> by by destruct (wpc s).
  unfold set_pcs; simpl. by rewrite Hs, list_insert_id.
Qed.

Lemma read_error_is_swallowed_witness :
  ∃ σ s cn, run garbage_trace init = Some σ ∧
    sessions σ !! 0 = Some s ∧ conns σ !! connection (client s) = Some cn ∧
    step (Handler 0) σ
    = Some (mkState (clients σ)
              (<[connection (client s) := mkConn [] (sent cn) (closed cn)]> (conns σ))
              (chans σ) (closes σ) (sessions σ) (requests σ)
              (console σ ++ [LReceived (mkMessage "A" "")])).
Proof.
  eexists _, _, _. split; [vm_compute; reflexivity|].
  split; [reflexivity|]. split; [reflexivity|].
  apply read_error_is_swallowed; [reflexivity|reflexivity|discriminate|reflexivity|reflexivity].
Defined.




(** ** The "/broadcast/" route *)

(** C10.  When the path has at least three components between slashes,
    the body is the third one, whatever follows it; the handler then
    calls [broadcast] with author "Server" and that body.  For the path
    "/broadcast/" the body is the empty string. *)
Theorem readMsgFromRequest_third_component a b seg more σ j r :
  free_of "/" a = true → free_of "/" b = true → free_of "/" seg = true →
  Forall (λ p, free_of "/" p = true) more →
  path r = String.concat "/" (a :: b :: seg :: more) →
  requests σ !! j = Some r →
  tpc r = TRead →
  readMsgFromRequest (path r) = Some seg ∧
  run [Trigger j; Trigger j] σ
  = Some (mkState (clients σ) (conns σ) (chans σ) (closes σ) (sessions σ)
            (<[j := mkRequest (path r) (TBroadcast seg (BRange (clients σ))) (response r)]>
               (requests σ))
            (console σ ++ [LBroadcasting (mkMessage "Server" seg)])).
Proof.
  intros Ha Hb Hseg Hmore Hp Hj Ht.
  assert (readMsgFromRequest (path r) = Some seg) as Hread.
  { rewrite Hp. by apply readMsgFromRequest_prefix. }
  split; [done|].
  set (σ1 := set_tpc j r (TBroadcast seg BEnter) σ).
  assert (step (Trigger j) σ = Some σ1) as Hs1.
  { simpl. unfold broadcastHandler_step. rewrite Hj; simpl. by rewrite Ht, Hread. }
  rewrite (run_cons _ _ _ _ Hs1). simpl. unfold broadcastHandler_step; simpl.
  rewrite list_lookup_insert_eq by by eapply lookup_lt_Some. simpl.
  unfold set_tpc, set_requests; simpl. by rewrite list_insert_insert_eq.
Qed.

Lemma readMsgFromRequest_third_component_witness :
  (readMsgFromRequest "/broadcast/" = Some "" ∧
   run [Trigger 0; Trigger 0] (mkState [] [] [] 0 [] [mkRequest "/broadcast/" TRead ""] [])
   = Some (mkState [] [] [] 0 [] [mkRequest "/broadcast/" (TBroadcast "" (BRange [])) ""]
             [LBroadcasting (mkMessage "Server" "")])) ∧
  (readMsgFromRequest "/broadcast/a/b" = Some "a" ∧
   run [Trigger 0; Trigger 0] (mkState [] [] [] 0 [] [mkRequest "/broadcast/a/b" TRead ""] [])
   = Some (mkState [] [] [] 0 [] [mkRequest "/broadcast/a/b" (TBroadcast "a" (BRange [])) ""]
             [LBroadcasting (mkMessage "Server" "a")])).
Proof.
  split.
  - apply (readMsgFromRequest_third_component "" "broadcast" "" []
             (mkState [] [] [] 0 [] [mkRequest "/broadcast/" TRead ""] []) 0
             (mkRequest "/broadcast/" TRead ""));
      reflexivity || constructor.
  - apply (readMsgFromRequest_third_component "" "broadcast" "a" ["b"]
             (mkState [] [] [] 0 [] [mkRequest "/broadcast/a/b" TRead ""] []) 0
             (mkRequest "/broadcast/a/b" TRead ""));
      reflexivity || (repeat constructor).
Defined.




(** C7, amended.  The handler has no error response and no bounds check
    of its own; it relies on its route.  For every path that begins with
    the prefix "/broadcast/" of the route, the path splits into at least
    three components, so [parts[2]] is in bounds: the body is what
    follows the prefix up to the next slash (the empty string when
    nothing follows), and the handler goes on to [broadcast]. *)
Theorem routed_path_in_bounds σ j r rest :
  requests σ !! j = Some r →
  tpc r = TRead →
  path r = "/broadcast/" +:+ rest →
  ∃ seg more,
    Split rest "/" = seg :: more ∧
    readMsgFromRequest (path r) = Some seg ∧
    step (Trigger j) σ = Some (set_tpc j r (TBroadcast seg BEnter) σ).
Proof.
  intros Hj Ht Hp.
  destruct (Split rest "/") as [|seg more] eqn:E; [by apply Split_nonempty in E|].
  exists seg, more. split; [done|].
  assert (readMsgFromRequest (path r) = Some seg) as Hread.
  { rewrite Hp. unfold readMsgFromRequest.
    change ("/broadcast/" +:+ rest) with ("" +:+ String "/" ("broadcast" +:+ String "/" rest)).
    rewrite !Split_app by done. by rewrite E. }
  split; [done|].
  simpl. unfold broadcastHandler_step. rewrite Hj; simpl. by rewrite Ht, Hread.
Qed.

Lemma routed_path_in_bounds_witness :
  ∃ seg more,
    Split "" "/" = seg :: more ∧
    readMsgFromRequest "/broadcast/" = Some seg ∧
    step (Trigger 0) (mkState [] [] [] 0 [] [mkRequest "/broadcast/" TRead ""] [])
    = Some (mkState [] [] [] 0 [] [mkRequest "/broadcast/" (TBroadcast seg BEnter) ""] []).
Proof.
  apply (routed_path_in_bounds
           (mkState [] [] [] 0 [] [mkRequest "/broadcast/" TRead ""] []) 0
           (mkRequest "/broadcast/" TRead "") ""); reflexivity.
Defined.

(** C7 as stated fails: on the path "/broadcast/", where the message
    segment is missing, the body is the empty string and the handler
    broadcasts it and answers with the usual confirmation, not with an
    error. *)
Lemma missing_segment_is_no_error_response :
  readMsgFromRequest "/broadcast/" = Some EmptyString ∧
  run (Get "/broadcast/" :: repeat (Trigger 0) 4) init
  = Some (mkState [] [] [] 0 [] [mkRequest "/broadcast/" TDone "Broadcasting "]
            [LBroadcasting (mkMessage "Server" "")]).
Proof. split; reflexivity. Qed.

(** * Further properties *)

(** ** The request path *)

Section SplitMore.
Variable sep : ascii.

Lemma Split_length s : length (Split s sep) = S (count_sep sep s).
Proof.
  induction s as [|c s IH]; simpl; [done|].
  destruct (Ascii.eqb c sep); simpl; [by rewrite IH|].
  revert IH. destruct (Split s sep); simpl; [done|]. by intros ->.
Qed.

Lemma Split_parts_free s : Forall (λ p, free_of sep p = true) (Split s sep).
Proof.
  induction s as [|c s IH]; simpl; [by repeat constructor|].
  destruct (Ascii.eqb c sep) eqn:E; [by constructor|].
  pose proof (Split_nonempty sep s) as Hne.
  destruct (Split s sep) as [|p ps]; [done|].
  apply Forall_cons in IH as [Hp Hps]. constructor; [|done].
  simpl. by rewrite E, Hp.
Qed.

Lemma concat_Split s : String.concat (String sep EmptyString) (Split s sep) = s.
Proof.
  induction s as [|c s IH]; simpl; [done|].
  pose proof (Split_nonempty sep s) as Hne.
  destruct (Ascii.eqb c sep) eqn:E.
  - apply Ascii.eqb_eq in E as ->.
    destruct (Split s sep) as [|p ps]; [done|]. simpl in *. by rewrite IH.
  - destruct (Split s sep) as [|p [|p' ps]]; [done| |]; simpl in *; by rewrite <-IH.
Qed.

End SplitMore.

(** X1.  [readMsgFromRequest] panics (index out of range) exactly on
    the paths with fewer than two slashes. *)
Theorem readMsgFromRequest_panics_iff p :
  readMsgFromRequest p = None ↔ count_sep "/" p < 2.
Proof.
  unfold readMsgFromRequest. rewrite lookup_ge_None, Split_length. lia.
Qed.

(** X2.  Whenever [readMsgFromRequest] returns, the body has no slash
    and the path is two slash-free components, the body, and possibly
    more components, joined by slashes. *)
Theorem readMsgFromRequest_body p seg :
  readMsgFromRequest p = Some seg →
  free_of "/" seg = true ∧
  ∃ a b more, p = String.concat "/" (a :: b :: seg :: more) ∧
              free_of "/" a = true ∧ free_of "/" b = true ∧
              Forall (λ q, free_of "/" q = true) more.
Proof.
  unfold readMsgFromRequest. intros H.
  pose proof (Split_parts_free "/" p) as Hf. pose proof (concat_Split "/" p) as Hc.
  destruct (Split p "/") as [|a [|b [|seg' more]]]; try done.
  simpl in H. injection H as ->.
  apply Forall_cons in Hf as [Ha Hf]. apply Forall_cons in Hf as [Hb Hf].
  apply Forall_cons in Hf as [Hs Hf]. split; [done|].
  exists a, b, more. by rewrite Hc.
Qed.

Lemma readMsgFromRequest_body_witness :
  free_of "/" "a" = true ∧
  ∃ a b more, "/broadcast/a/b" = String.concat "/" (a :: b :: "a" :: more) ∧
              free_of "/" a = true ∧ free_of "/" b = true ∧
              Forall (λ q, free_of "/" q = true) more.
Proof. apply (readMsgFromRequest_body "/broadcast/a/b" "a"). reflexivity. Defined.

(** ** Requests on the "/broadcast/" route *)

Lemma request_ok_step a σ σ' :
  Forall request_ok (requests σ) → step a σ = Some σ' → Forall request_ok (requests σ').
Proof.
  intros Hinv Hstep. destruct a as [frames|p|i|i pc|j].
  - apply step_sessions in Hstep as Hs. simpl in Hstep. by injection Hstep as <-.
  - simpl in Hstep. injection Hstep as <-. simpl.
    apply Forall_app. split; [done|]. by repeat constructor.
  - simpl in Hstep. unfold_handler in Hstep.
    destruct (sessions σ !! i) as [s|]; simpl in Hstep; [|done].
    destruct (hpc s); simpl in Hstep; try done;
      try (by injection Hstep as <-).
    + destruct (JSON_Send _ _ _); [by injection Hstep as <-|done].
    + destruct (writer_sending (wpc s)); [by injection Hstep as <-|].
      destruct (JSON_Receive _ _) as [[[] ?]|]; [by injection Hstep as <-..|done].
    + destruct (broadcast_step _ _ _) as [[b' σ1]|] eqn:E; simpl in Hstep; [|done].
      injection Hstep as <-. simpl.
      by apply broadcast_step_frame in E as (_ & _ & _ & _ & ->).
    + destruct (ws_Close _ _); [by injection Hstep as <-|done].
  - simpl in Hstep. unfold listenToWrite_step in Hstep.
    destruct (sessions σ !! i) as [s|]; simpl in Hstep; [|done].
    destruct (wpc s); simpl in Hstep; try done.
    + destruct (_ && _); [by injection Hstep as <-|].
      destruct (chan_recv _ _) as [[m chs]|]; [by injection Hstep as <-|done].
    + destruct (JSON_Send _ _ _); [by injection Hstep as <-|done].
    + by injection Hstep as <-.
  - simpl in Hstep. unfold broadcastHandler_step in Hstep.
    destruct (requests σ !! j) as [r|] eqn:Hj; simpl in Hstep; [|done].
    pose proof (Forall_lookup_1 _ _ _ _ Hinv Hj) as Hr. unfold request_ok in Hr.
    destruct (tpc r) eqn:Ht; simpl in Hstep; try done.
    + destruct (readMsgFromRequest (path r)) eqn:Hread; injection Hstep as <-; simpl;
        (apply Forall_insert; [done|]); unfold request_ok; simpl; done.
    + destruct (broadcast_step _ _ _) as [[b' σ1]|] eqn:E; simpl in Hstep; [|done].
      injection Hstep as <-. simpl.
      apply broadcast_step_frame in E as (_ & _ & _ & _ & ->).
      apply Forall_insert; [done|]. unfold request_ok; simpl. by destruct b'.
    + injection Hstep as <-. simpl. apply Forall_insert; [done|].
      unfold request_ok; simpl. destruct Hr as [Hread ->]. eauto.
Qed.

Lemma request_ok_run tr : ∀ σ0 σ,
  Forall request_ok (requests σ0) → run tr σ0 = Some σ → Forall request_ok (requests σ).
Proof.
  induction tr as [|a tr IH]; intros σ0 σ H0 Hrun; simpl in Hrun.
  - by simplify_eq.
  - destruct (step a σ0) as [σ1|] eqn:E; simpl in Hrun; [|done].
    eauto using request_ok_step.
Qed.

(** X3.  In every state the program reaches, a request has a response
    only once its handler is done, and then it is "Broadcasting "
    followed by the body read from its path; a handler inside
    [broadcast] carries the body read from its path, and a handler that
    ended in the panic had a path out of range. *)
Theorem broadcastHandler_response tr σ j r :
  run tr init = Some σ →
  requests σ !! j = Some r →
  (tpc r = TDone →
   ∃ msg, readMsgFromRequest (path r) = Some msg ∧
          response r = ("Broadcasting " +:+ msg)%string) ∧
  (tpc r ≠ TDone → response r = EmptyString) ∧
  (tpc r = TPanic → readMsgFromRequest (path r) = None) ∧
  (∀ msg b, tpc r = TBroadcast msg b → readMsgFromRequest (path r) = Some msg).
Proof.
  intros Hrun Hj.
  assert (request_ok r) as Hr.
  { eapply Forall_lookup_1; [|exact Hj]. eapply request_ok_run; [|exact Hrun]. constructor. }
  unfold request_ok in Hr. destruct (tpc r); split_and!; try done.
  - by destruct Hr.
  - intros msg' b' [= <- <-]. by destruct Hr.
  - by destruct Hr.
  - by destruct Hr.
  - by destruct Hr.
Qed.

Lemma broadcastHandler_response_witness :
  ∃ σ r, run (ping_trace ++ repeat (Trigger 0) 5) init = Some σ ∧
    requests σ !! 0 = Some r ∧ tpc r = TDone ∧
    ∃ msg, readMsgFromRequest (path r) = Some msg ∧
           response r = ("Broadcasting " +:+ msg)%string.
Proof.
  eexists _, _. split; [vm_compute; reflexivity|]. split; [reflexivity|].
  split; [reflexivity|].
  eapply (broadcastHandler_response (ping_trace ++ repeat (Trigger 0) 5) _ 0);
    [vm_compute; reflexivity|reflexivity|reflexivity].
Defined.

(** ** The registry and the connections *)

(** X4.  In every state the program reaches no queue is listed twice in
    the registry, and every entry is the client of the connection whose
    handle it carries, which has executed its append and whose queue
    exists. *)
Theorem registry_entries tr σ :
  run tr init = Some σ →
  NoDup (ch <$> clients σ) ∧
  ∀ c, c ∈ clients σ →
       ∃ s, sessions σ !! connection c = Some s ∧ client s = c ∧
            appended (hpc s) = true ∧ ch c < length (chans σ).
Proof.
  intros Hrun.
  destruct (reg_run tr init σ wf_init reg_init Hrun) as ([Hnd Hown] & Hss & _).
  split; [done|]. intros c Hc.
  destruct (Hown c Hc) as (s & Hs & Hcl & Happ). exists s. split_and!; try done.
  destruct (Hss _ _ Hs) as [_ Hlt]. rewrite <-Hcl. apply Hlt.
  intros E. by rewrite E in Happ.
Qed.

Lemma registry_entries_witness :
  ∃ σ, run hi_trace init = Some σ ∧
    NoDup (ch <$> clients σ) ∧
    ∀ c, c ∈ clients σ →
         ∃ s, sessions σ !! connection c = Some s ∧ client s = c ∧
              appended (hpc s) = true ∧ ch c < length (chans σ).
Proof.
  eexists. split; [vm_compute; reflexivity|].
  apply (registry_entries hi_trace). vm_compute; reflexivity.
Defined.

(** X5.  In every state the program reaches, no connection has been
    closed: the deferred [ws.Close()] of [onWsConnect] has never run. *)
Theorem connection_never_closed tr σ cn :
  run tr init = Some σ → cn ∈ conns σ → closed cn = 0.
Proof.
  intros Hrun [i Hcn]%list_elem_of_lookup.
  apply reachable_wf in Hrun as (Hlen & _ & Hs).
  assert (is_Some (sessions σ !! i)) as [s Hi].
  { apply lookup_lt_is_Some. rewrite Hlen. by eapply lookup_lt_Some. }
  by destruct (Hs i s cn Hi Hcn).
Qed.

Lemma connection_never_closed_witness :
  ∃ σ cn, run eof_trace init = Some σ ∧ conns σ = [cn] ∧ closed cn = 0.
Proof.
  eexists _, _. split; [vm_compute; reflexivity|]. split; [reflexivity|].
  eapply (connection_never_closed eof_trace); [vm_compute; reflexivity|].
  by apply list_elem_of_singleton.
Defined.

Ltac look :=
  repeat first
    [ rewrite list_lookup_insert_ne by done
    | rewrite list_lookup_insert_eq
        by (rewrite ?length_insert; eapply lookup_lt_Some; eassumption) ].

Ltac hstep :=
  erewrite run_cons;
  [| simpl; unfold_handler; simpl; look; simpl; try reflexivity ].

(** X9.  When two connections register at the same time, so that both
    read [clients] before either assigns it, the registry ends with the
    client of the second one only: the client of the first is greeted
    and goes on to [listen], but is not registered. *)
Theorem racing_registrations_lose_a_client tr σ i j si sj cni cnj :
  run tr init = Some σ →
  i ≠ j →
  sessions σ !! i = Some si → hpc si = HArgs →
  sessions σ !! j = Some sj → hpc sj = HArgs →
  conns σ !! i = Some cni → conns σ !! j = Some cnj →
  ∃ σ', run (racing i j) σ = Some σ' ∧
        clients σ' = (clients σ ++ [client sj]) ∧
        (client si ∉ clients σ') ∧
        sessions σ' !! i = Some (mkSession (ws si) (client si) HListen (wpc si)) ∧
        sessions σ' !! j = Some (mkSession (ws sj) (client sj) HListen (wpc sj)) ∧
        conns σ' !! i = Some (mkConn (incoming cni) [greeting] (closed cni)).
Proof.
  intros Hrun Hne Hi Hpi Hj Hpj Hci Hcj.
  pose proof (reachable_wf _ _ Hrun) as Hwf.
  destruct (reg_run _ _ _ wf_init reg_init Hrun) as ([_ Hown] & _).
  destruct (wf_session _ _ _ Hwf Hi) as (cni' & Hci' & [_ Hconi _ _ _ _ Hfi _ _ _]).
  destruct (wf_session _ _ _ Hwf Hj) as (cnj' & Hcj' & [_ Hconj _ _ _ _ Hfj _ _ _]).
  rewrite Hci in Hci'. injection Hci' as <-. rewrite Hcj in Hcj'. injection Hcj' as <-.
  rewrite Hpi in *. rewrite Hpj in *.
  specialize (Hconi ltac:(done)). specialize (Hconj ltac:(done)).
  specialize (Hfi eq_refl). specialize (Hfj eq_refl).
  eexists. split.
  - unfold racing.
    hstep. 2: { rewrite Hi; simpl. rewrite Hpi. reflexivity. }
    hstep. 2: { rewrite Hj; simpl. rewrite Hpj. reflexivity. }
    hstep. hstep.
    hstep. 2: { unfold JSON_Send; simpl. rewrite Hconi, Hci. simpl. reflexivity. }
    hstep. 2: { unfold JSON_Send; simpl. rewrite Hconj. look. rewrite Hcj. simpl. reflexivity. }
    hstep. hstep. hstep. hstep. reflexivity.
  - simpl. split_and!.
    + done.
    + intros [Hin|Hin]%elem_of_app.
      * destruct (Hown _ Hin) as (s & Hs & Hc & Happ).
        rewrite Hconi, Hi in Hs. injection Hs as <-. by rewrite Hpi in Happ.
      * apply list_elem_of_singleton in Hin. apply Hne. by rewrite <-Hconi, <-Hconj, Hin.
    + look. done.
    + look. done.
    + look. by rewrite Hfi.
Qed.

Lemma racing_registrations_lose_a_client_witness :
  ∃ σ σ', run [Accept []; Accept []; Handler 0; Handler 1] init = Some σ ∧
    run (racing 0 1) σ = Some σ' ∧
    clients σ' = [client1] ∧ (client0 ∉ clients σ') ∧
    sessions σ' !! 0 = Some (mkSession 0 client0 HListen WNotStarted) ∧
    sessions σ' !! 1 = Some (mkSession 1 client1 HListen WNotStarted) ∧
    conns σ' !! 0 = Some (mkConn [] [greeting] 0).
Proof.
  destruct (racing_registrations_lose_a_client [Accept []; Accept []; Handler 0; Handler 1]
              (mkState [] [mkConn [] [] 0; mkConn [] [] 0] [mkChan [] 100; mkChan [] 100] 2
                 [mkSession 0 client0 HArgs WNotStarted; mkSession 1 client1 HArgs WNotStarted]
                 [] [])
              0 1 (mkSession 0 client0 HArgs WNotStarted)
              (mkSession 1 client1 HArgs WNotStarted) (mkConn [] [] 0) (mkConn [] [] 0))
    as (σ' & Hrun & Hcl & Hnot & H0 & H1 & Hc);
    [vm_compute; reflexivity|lia|reflexivity..|].
  eexists _, σ'. split; [vm_compute; reflexivity|]. by split_and!.
Defined.

(** ** The write loop *)

Lemma writer_takes_message σ i b s q cn m rest :
  sessions σ !! i = Some s →
  wpc s = WSelect →
  reader_sending (hpc s) = false →
  chans σ !! ch (client s) = Some q →
  buf q = m :: rest →
  conns σ !! connection (client s) = Some cn →
  run [Writer i b; Writer i b] σ
  = Some (mkState (clients σ)
            (<[connection (client s) := mkConn (incoming cn) (sent cn ++ [m]) (closed cn)]>
               (conns σ))
            (<[ch (client s) := mkChan rest (cap q)]> (chans σ))
            (closes σ) (sessions σ) (requests σ) (console σ ++ [LSend m])).
Proof.
  intros Hi Hw Hr Hq Hb Hcn.
  assert (mkSession (ws s) (client s) (hpc s) WSelect = s) as Hs.
  { destruct s; simpl in *; by subst. }
  set (σ1 := set_pcs i s (hpc s) (WSend m)
               (print (LSend m)
                  (set_chans (<[ch (client s) := mkChan rest (cap q)]> (chans σ)) σ))).
  assert (step (Writer i b) σ = Some σ1) as H1.
  { simpl. unfold listenToWrite_step. rewrite Hi; simpl. rewrite Hw, Hr; simpl.
    unfold chan_recv. rewrite Hq; simpl. by rewrite Hb. }
  rewrite (run_cons _ _ _ _ H1). simpl. unfold listenToWrite_step; simpl.
  rewrite list_lookup_insert_eq by by eapply lookup_lt_Some. simpl.
  unfold JSON_Send. rewrite Hcn; simpl.
  unfold set_pcs, set_sessions; simpl.
  by rewrite list_insert_insert_eq, Hs, (list_insert_id _ _ _ Hi).
Qed.

Lemma listenToWrite_drains_queue msgs : ∀ σ i b s q cn,
  sessions σ !! i = Some s →
  wpc s = WSelect →
  reader_sending (hpc s) = false →
  chans σ !! ch (client s) = Some q →
  buf q = msgs →
  conns σ !! connection (client s) = Some cn →
  ∃ σ',
    run (repeat (Writer i b) (2 * length msgs)) σ = Some σ' ∧
    σ' = mkState (clients σ)
           (<[connection (client s) := mkConn (incoming cn) (sent cn ++ msgs) (closed cn)]>
              (conns σ))
           (<[ch (client s) := mkChan [] (cap q)]> (chans σ))
           (closes σ) (sessions σ) (requests σ) (console σ ++ (LSend <$> msgs)) ∧
    step (Writer i b) σ' = None.
Proof.
  induction msgs as [|m rest IH]; intros σ i b s q cn Hi Hw Hr Hq Hb Hcn.
  - eexists. split; [reflexivity|].
    assert (mkState (clients σ)
              (<[connection (client s) := mkConn (incoming cn) (sent cn ++ []) (closed cn)]>
                 (conns σ))
              (<[ch (client s) := mkChan [] (cap q)]> (chans σ))
              (closes σ) (sessions σ) (requests σ) (console σ ++ (LSend <$> [])) = σ) as ->.
    { rewrite !app_nil_r. destruct σ; simpl in *. f_equal.
      - apply list_insert_id. by destruct cn.
      - apply list_insert_id. rewrite Hq. destruct q; simpl in *; by subst. }
    split; [done|]. simpl. unfold listenToWrite_step. rewrite Hi; simpl. rewrite Hw, Hr; simpl.
    unfold chan_recv. rewrite Hq; simpl. by rewrite Hb.
  - pose proof (writer_takes_message σ i b s q cn m rest Hi Hw Hr Hq Hb Hcn) as H2.
    match type of H2 with _ = Some ?x => set (σ1 := x) in * end.
    destruct (IH σ1 i b s (mkChan rest (cap q))
                (mkConn (incoming cn) (sent cn ++ [m]) (closed cn)))
      as (σ' & Hrun & Heq & Hblock); try done.
    + simpl. apply list_lookup_insert_eq. by eapply lookup_lt_Some.
    + simpl. apply list_lookup_insert_eq. by eapply lookup_lt_Some.
    + exists σ'. split; [|split; [|done]].
      * replace (2 * length (m :: rest)) with (2 + 2 * length rest) by (simpl; lia).
        rewrite repeat_app, run_app.
        change (repeat (Writer i b) 2) with [Writer i b; Writer i b].
        rewrite H2. exact Hrun.
      * rewrite Heq. unfold σ1; simpl.
        rewrite !list_insert_insert_eq, <-!app_assoc. done.
Qed.

(** X6.  A write loop at its select, with no termination signal pending,
    run on its own forwards the whole queue to its connection in queue
    order, two steps per message, printing one "Send:" line each, and
    then waits on the empty queue; nothing else changes. *)
Theorem listenToWrite_forwards_queue σ i b s q cn :
  sessions σ !! i = Some s →
  wpc s = WSelect →
  reader_sending (hpc s) = false →
  chans σ !! ch (client s) = Some q →
  conns σ !! connection (client s) = Some cn →
  ∃ σ',
    run (repeat (Writer i b) (2 * length (buf q))) σ = Some σ' ∧
    σ' = mkState (clients σ)
           (<[connection (client s) := mkConn (incoming cn) (sent cn ++ buf q) (closed cn)]>
              (conns σ))
           (<[ch (client s) := mkChan [] (cap q)]> (chans σ))
           (closes σ) (sessions σ) (requests σ) (console σ ++ (LSend <$> buf q)) ∧
    step (Writer i b) σ' = None.
Proof. intros Hi Hw Hr Hq Hcn. by eapply listenToWrite_drains_queue. Qed.

Lemma listenToWrite_forwards_queue_witness :
  ∃ σ σ', run queued_trace init = Some σ ∧
    chans σ = [mkChan [msg_x; msg_x] 100] ∧
    run (repeat (Writer 0 false) 4) σ = Some σ' ∧
    conns σ' = [mkConn [] [greeting; msg_x; msg_x] 0] ∧
    chans σ' = [mkChan [] 100] ∧
    step (Writer 0 false) σ' = None.
Proof.
  destruct (listenToWrite_forwards_queue
              (mkState [client0] [mkConn [] [greeting] 0] [mkChan [msg_x; msg_x] 100] 1
                 [mkSession 0 client0 RSelect WSelect]
                 [mkRequest "/broadcast/x" TDone "Broadcasting x";
                  mkRequest "/broadcast/x" TDone "Broadcasting x"]
                 [LListening; LBroadcasting msg_x; LBroadcasting msg_x])
              0 false (mkSession 0 client0 RSelect WSelect)
              (mkChan [msg_x; msg_x] 100) (mkConn [] [greeting] 0))
    as (σ' & Hrun & Heq & Hblock); [reflexivity..|].
  eexists _, σ'. split; [vm_compute; reflexivity|]. split; [reflexivity|].
  split; [exact Hrun|]. split; [by rewrite Heq|]. split; [by rewrite Heq|done].
Defined.

Lemma JSON_Send_other id m cs cs' k :
  JSON_Send id m cs = Some cs' → k ≠ id → cs' !! k = cs !! k.
Proof.
  intros (cn & _ & ->)%JSON_Send_Some Hne. by rewrite list_lookup_insert_ne.
Qed.

Lemma JSON_Receive_sent id cs r cs' k cn :
  JSON_Receive id cs = Some (r, cs') → cs !! k = Some cn →
  ∃ cn', cs' !! k = Some cn' ∧ sent cn' = sent cn ∧ closed cn' = closed cn.
Proof.
  intros (cn0 & rest & Hcn0 & _ & ->)%JSON_Receive_Some Hk.
  destruct (decide (k = id)) as [->|Hne].
  - rewrite list_lookup_insert_eq by by eapply lookup_lt_Some.
    rewrite Hcn0 in Hk. injection Hk as <-. eauto.
  - rewrite list_lookup_insert_ne by done. eauto.
Qed.

Lemma silent_step a σ σ' i s cn :
  wf σ →
  sessions σ !! i = Some s → signalled (wpc s) = true →
  conns σ !! i = Some cn →
  step a σ = Some σ' →
  ∃ s' cn', sessions σ' !! i = Some s' ∧ signalled (wpc s') = true ∧
            conns σ' !! i = Some cn' ∧ sent cn' = sent cn.
Proof.
  intros Hwf Hi Hsig Hcn Hstep.
  destruct (wf_session _ _ _ Hwf Hi) as (cn0 & Hcn0 & [_ Hcon _ _ _ Hwr _ _ _ _]).
  assert (listening (hpc s) = true) as Hl.
  { destruct (listening (hpc s)); [done|]. rewrite Hwr in Hsig; done. }
  destruct a as [frames|p|j|j pc|j]; simpl in Hstep.
  - injection Hstep as <-. simpl. exists s, cn.
    rewrite (lookup_app_l (sessions σ)) by by eapply lookup_lt_Some.
    rewrite (lookup_app_l (conns σ)) by by eapply lookup_lt_Some. done.
  - injection Hstep as <-. simpl. eauto 10.
  - unfold_handler in Hstep.
    destruct (sessions σ !! j) as [sj|] eqn:Hj; simpl in Hstep; [|done].
    destruct (wf_session _ _ _ Hwf Hj) as (cnj & Hcnj & [_ Hconj _ _ _ Hwrj _ _ _ _]).
    assert (∀ h w σ1, sessions σ1 = sessions σ → conns σ1 = conns σ →
              (j = i → signalled w = true) →
              ∃ s' cn', sessions (set_pcs j sj h w σ1) !! i = Some s' ∧
                        signalled (wpc s') = true ∧
                        conns (set_pcs j sj h w σ1) !! i = Some cn' ∧ sent cn' = sent cn) as Hupd.
    { intros h w σ1 Hs1 Hc1 Hw. simpl. rewrite Hs1, Hc1.
      destruct (decide (j = i)) as [->|Hne].
      - rewrite list_lookup_insert_eq by by eapply lookup_lt_Some. eexists _, cn. simpl. auto.
      - rewrite list_lookup_insert_ne by done. eauto 10. }
    assert (j = i → sj = s) as Hsame by (intros ->; congruence).
    destruct (hpc sj) eqn:Hpc; simpl in Hstep; try done.
    + injection Hstep as <-. simpl.
      destruct (decide (j = i)) as [->|Hne].
      * rewrite Hsame in Hpc by done. by rewrite Hpc in Hl.
      * rewrite list_lookup_insert_ne by done. eauto 10.
    + injection Hstep as <-. apply Hupd; try done. intros E. by rewrite (Hsame E).
    + injection Hstep as <-. apply Hupd; try done. intros E. by rewrite (Hsame E).
    + destruct (JSON_Send _ _ _) as [cs|] eqn:E; simpl in Hstep; [|done].
      injection Hstep as <-. rewrite Hconj in E by done.
      destruct (decide (j = i)) as [->|Hne].
      * rewrite Hsame in Hpc by done. by rewrite Hpc in Hl.
      * simpl. rewrite list_lookup_insert_ne by done.
        rewrite (JSON_Send_other _ _ _ _ i E) by done. eauto 10.
    + injection Hstep as <-. apply Hupd; try done. intros E. by rewrite (Hsame E).
    + injection Hstep as <-. apply Hupd; try done. intros E. by rewrite (Hsame E).
    + injection Hstep as <-. simpl.
      destruct (decide (j = i)) as [->|Hne].
      * rewrite Hsame in Hpc by done. by rewrite Hpc in Hl.
      * rewrite list_lookup_insert_ne by done. eauto 10.
    + injection Hstep as <-. apply Hupd; try done. intros E. by rewrite (Hsame E).
    + destruct (writer_sending (wpc sj)) eqn:Hws.
      { injection Hstep as <-. apply Hupd; done. }
      destruct (JSON_Receive _ _) as [[r cs]|] eqn:E; simpl in Hstep; [|done].
      destruct (JSON_Receive_sent _ _ _ _ i cn E Hcn) as (cn' & Hcn' & Hsent & _).
      assert (∃ h, σ' = set_pcs j sj h (wpc sj) (print (LReceived (match r with
                RecvOk m => m | RecvEOF => mkMessage "" "" | RecvErr p => p end))
                (set_conns cs σ))) as [h ->].
      { destruct r; injection Hstep as <-; eauto 10. }
      simpl. destruct (decide (j = i)) as [->|Hne].
      * rewrite list_lookup_insert_eq by by eapply lookup_lt_Some.
        eexists _, cn'. simpl. rewrite (Hsame eq_refl). split_and!; done.
      * rewrite list_lookup_insert_ne by done. eauto 10.
    + destruct (broadcast_step _ _ _) as [[b' σ1]|] eqn:E; simpl in Hstep; [|done].
      injection Hstep as <-.
      apply broadcast_step_frame in E as (_ & Hc1 & _ & Hs1 & _).
      apply Hupd; try done. intros E. by rewrite (Hsame E).
    + destruct (ws_Close _ _) as [cs|] eqn:E; simpl in Hstep; [|done].
      destruct (wf_session _ _ _ Hwf Hj) as (? & ? & [_ _ Hd _ _ _ _ _ _ _]). done.
  - unfold listenToWrite_step in Hstep.
    destruct (sessions σ !! j) as [sj|] eqn:Hj; simpl in Hstep; [|done].
    destruct (wf_session _ _ _ Hwf Hj) as (cnj & Hcnj & [_ Hconj _ _ _ Hwrj _ _ _ _]).
    assert (wpc sj ≠ WNotStarted → connection (client sj) = j) as Hcj.
    { intros Hn. apply Hconj. intros E. apply Hn, Hwrj. by rewrite E. }
    assert (j = i → sj = s) as Hsame by (intros ->; congruence).
    assert (∀ h w σ1, sessions σ1 = sessions σ → conns σ1 = conns σ →
              (j = i → signalled w = true) →
              ∃ s' cn', sessions (set_pcs j sj h w σ1) !! i = Some s' ∧
                        signalled (wpc s') = true ∧
                        conns (set_pcs j sj h w σ1) !! i = Some cn' ∧ sent cn' = sent cn) as Hupd.
    { intros h w σ1 Hs1 Hc1 Hw. simpl. rewrite Hs1, Hc1.
      destruct (decide (j = i)) as [->|Hne].
      - rewrite list_lookup_insert_eq by by eapply lookup_lt_Some. eexists _, cn. simpl. auto.
      - rewrite list_lookup_insert_ne by done. eauto 10. }
    destruct (wpc sj) eqn:Hw; simpl in Hstep; try done.
    + destruct (_ && _).
      * injection Hstep as <-. by apply Hupd.
      * destruct (chan_recv _ _) as [[m chs]|]; simpl in Hstep; [|done].
        injection Hstep as <-. apply Hupd; try done.
        intros ->. rewrite (Hsame eq_refl) in Hw. by rewrite Hw in Hsig.
    + destruct (JSON_Send _ _ _) as [cs|] eqn:E; simpl in Hstep; [|done].
      injection Hstep as <-. rewrite Hcj in E by done.
      destruct (decide (j = i)) as [->|Hne].
      * rewrite (Hsame eq_refl) in Hw. by rewrite Hw in Hsig.
      * simpl. rewrite list_lookup_insert_ne by done.
        rewrite (JSON_Send_other _ _ _ _ i E) by done. eauto 10.
    + injection Hstep as <-. by apply Hupd.
  - unfold broadcastHandler_step in Hstep.
    destruct (requests σ !! j) as [r|]; simpl in Hstep; [|done].
    destruct (tpc r); simpl in Hstep; try done.
    + destruct (readMsgFromRequest _); injection Hstep as <-; simpl; eauto 10.
    + destruct (broadcast_step _ _ _) as [[b' σ1]|] eqn:E; simpl in Hstep; [|done].
      injection Hstep as <-. simpl.
      apply broadcast_step_frame in E as (_ & -> & _ & -> & _). eauto 10.
    + injection Hstep as <-. simpl. eauto 10.
Qed.

Lemma silent_run tr' : ∀ σ σ' i s cn,
  wf σ →
  sessions σ !! i = Some s → signalled (wpc s) = true →
  conns σ !! i = Some cn →
  run tr' σ = Some σ' →
  ∃ cn', conns σ' !! i = Some cn' ∧ sent cn' = sent cn.
Proof.
  induction tr' as [|a tr' IH]; intros σ σ' i s cn Hwf Hi Hsig Hcn Hrun; simpl in Hrun.
  - simplify_eq. eauto.
  - destruct (step a σ) as [σ1|] eqn:E; simpl in Hrun; [|done].
    destruct (silent_step _ _ _ _ _ _ Hwf Hi Hsig Hcn E) as (s1 & cn1 & Hi1 & Hsig1 & Hcn1 & <-).
    apply (IH σ1 σ' i s1 cn1); [by eapply wf_step|done..].
Qed.

(** X7.  Once the write loop of a connection has taken the termination
    signal, nothing more is ever written to that connection, whatever is
    or comes on its queue. *)
Theorem listenToWrite_silent_after_signal tr σ i s cn tr' σ' :
  run tr init = Some σ →
  sessions σ !! i = Some s →
  signalled (wpc s) = true →
  conns σ !! connection (client s) = Some cn →
  run tr' σ = Some σ' →
  ∃ cn', conns σ' !! connection (client s) = Some cn' ∧ sent cn' = sent cn.
Proof.
  intros Hrun Hi Hsig Hcn Hrun'. pose proof (reachable_wf _ _ Hrun) as Hwf.
  destruct (wf_session _ _ _ Hwf Hi) as (cn0 & Hcn0 & [_ Hcon _ _ _ Hwr _ _ _ _]).
  assert (connection (client s) = i) as Hci.
  { apply Hcon. intros E. rewrite E in Hwr. rewrite Hwr in Hsig; done. }
  rewrite Hci in *. by eapply silent_run.
Qed.

Lemma listenToWrite_silent_after_signal_witness :
  ∃ σ σ' cn', run eof_trace init = Some σ ∧
    run (served_alone 0) σ = Some σ' ∧
    chans σ' = [mkChan [msg_x] 100] ∧
    conns σ' !! 0 = Some cn' ∧ sent cn' = [greeting].
Proof.
  destruct (listenToWrite_silent_after_signal eof_trace
              (mkState [client0] [mkConn [] [greeting] 0] [mkChan [] 100] 1
                 [mkSession 0 client0 RAck WDone] []
                 [LListening; LReceived (mkMessage "" "")])
              0 (mkSession 0 client0 RAck WDone) (mkConn [] [greeting] 0) (served_alone 0)
              (mkState [client0] [mkConn [] [greeting] 0] [mkChan [msg_x] 100] 1
                 [mkSession 0 client0 RAck WDone]
                 [mkRequest "/broadcast/x" TDone "Broadcasting x"]
                 [LListening; LReceived (mkMessage "" ""); LBroadcasting msg_x]))
    as (cn' & Hcn' & Hsent);
    [vm_compute; reflexivity|reflexivity|reflexivity|reflexivity|vm_compute; reflexivity|].
  eexists _, _, cn'. split; [vm_compute; reflexivity|]. split; [vm_compute; reflexivity|].
  split; [reflexivity|]. split; [exact Hcn'|exact Hsent].
Defined.

(** ** A client whose loops are stuck *)

Lemma broadcast_step_keeps_full m b σ b' σ' k q :
  broadcast_step m b σ = Some (b', σ') →
  chans σ !! k = Some q → cap q ≤ length (buf q) →
  chans σ' !! k = Some q.
Proof.
  intros H Hk Hfull. destruct b as [|[|c rest]]; simpl in H.
  - by injection H as <- <-.
  - by injection H as <- <-.
  - destruct (chan_send _ _ _) as [chs|] eqn:E; simpl in H; [|done].
    injection H as <- <-. simpl. eauto using chan_send_keeps_full.
Qed.

Lemma chan_recv_other id chs m chs' k :
  chan_recv id chs = Some (m, chs') → k ≠ id → chs' !! k = chs !! k.
Proof.
  unfold chan_recv. intros H Hne. destruct (chs !! id) as [q|]; simpl in H; [|done].
  destruct (buf q); [done|]. injection H as <- <-. by rewrite list_lookup_insert_ne.
Qed.

Lemma stuck_created s : stuck s = true → hpc s ≠ HNew.
Proof. unfold stuck. by destruct (hpc s). Qed.

(** The full queue of a connection whose loops are stuck stays as it is. *)
Lemma full_queue_step a σ σ' i s q :
  wf σ → reg σ →
  sessions σ !! i = Some s → stuck s = true →
  chans σ !! ch (client s) = Some q → cap q ≤ length (buf q) →
  step a σ = Some σ' →
  chans σ' !! ch (client s) = Some q.
Proof.
  intros Hwf (_ & Hss & _ & Hinj) Hi Hst Hq Hfull Hstep.
  destruct a as [frames|p|j|j pc|j]; simpl in Hstep.
  - by injection Hstep as <-.
  - by injection Hstep as <-.
  - unfold_handler in Hstep.
    destruct (sessions σ !! j) as [sj|] eqn:Hj; simpl in Hstep; [|done].
    destruct (hpc sj) eqn:Hpc; simpl in Hstep; try done;
      try (by injection Hstep as <-).
    + injection Hstep as <-. simpl. rewrite lookup_app_l; [done|]. by eapply lookup_lt_Some.
    + destruct (JSON_Send _ _ _); [by injection Hstep as <-|done].
    + destruct (writer_sending (wpc sj)); [by injection Hstep as <-|].
      destruct (JSON_Receive _ _) as [[[] ?]|]; [by injection Hstep as <-..|done].
    + destruct (broadcast_step _ _ _) as [[b' σ1]|] eqn:E; simpl in Hstep; [|done].
      injection Hstep as <-. simpl. eauto using broadcast_step_keeps_full.
    + destruct (ws_Close _ _); [by injection Hstep as <-|done].
  - unfold listenToWrite_step in Hstep.
    destruct (sessions σ !! j) as [sj|] eqn:Hj; simpl in Hstep; [|done].
    destruct (wf_session _ _ _ Hwf Hj) as (cnj & Hcnj & [_ _ _ _ _ Hwrj _ _ _ _]).
    destruct (wpc sj) eqn:Hw; simpl in Hstep; try done.
    + destruct (_ && _); [by injection Hstep as <-|].
      destruct (chan_recv _ _) as [[m chs]|] eqn:E; simpl in Hstep; [|done].
      injection Hstep as <-. simpl.
      rewrite (chan_recv_other _ _ _ _ (ch (client s)) E); [done|].
      intros Heq. assert (i = j) as ->.
      { eapply Hinj; [exact Hi|exact Hj|by apply stuck_created| |done].
        intros En. rewrite En in Hwrj. by specialize (Hwrj eq_refl). }
      rewrite Hi in Hj. injection Hj as <-. unfold stuck in Hst. rewrite Hw in Hst.
      by destruct (hpc s).
    + destruct (JSON_Send _ _ _); [by injection Hstep as <-|done].
    + by injection Hstep as <-.
  - unfold broadcastHandler_step in Hstep.
    destruct (requests σ !! j) as [r|]; simpl in Hstep; [|done].
    destruct (tpc r); simpl in Hstep; try done.
    + destruct (readMsgFromRequest _); by injection Hstep as <-.
    + destruct (broadcast_step _ _ _) as [[b' σ1]|] eqn:E; simpl in Hstep; [|done].
      injection Hstep as <-. simpl. eauto using broadcast_step_keeps_full.
    + by injection Hstep as <-.
Qed.

(** ... in every later state. *)
Lemma full_queue_run tr' : ∀ σ σ' i s q,
  wf σ → reg σ →
  sessions σ !! i = Some s → stuck s = true →
  chans σ !! ch (client s) = Some q → cap q ≤ length (buf q) →
  run tr' σ = Some σ' →
  chans σ' !! ch (client s) = Some q.
Proof.
  induction tr' as [|a tr' IH]; intros σ σ' i s q Hwf Hreg Hi Hst Hq Hfull Hrun;
    simpl in Hrun.
  - by simplify_eq.
  - destruct (step a σ) as [σ1|] eqn:E; simpl in Hrun; [|done].
    apply (IH σ1 σ' i s q); eauto using wf_step, reg_step, stuck_step, full_queue_step.
Qed.

(** X8.  Once the loops of a client are stuck and its queue is full, the
    queue stays as it is in every later state, so no send on it can be
    completed: whichever loop of [broadcast] stands at an entry with that
    queue, in a request or in the read loop of a connection, cannot
    step. *)
Theorem stuck_client_blocks_broadcast tr σ i s q tr' σ' :
  run tr init = Some σ →
  sessions σ !! i = Some s → stuck s = true →
  chans σ !! ch (client s) = Some q → cap q ≤ length (buf q) →
  run tr' σ = Some σ' →
  chans σ' !! ch (client s) = Some q ∧
  (∀ m, chan_send (ch (client s)) m (chans σ') = None) ∧
  (∀ j r msg c rest,
     requests σ' !! j = Some r → tpc r = TBroadcast msg (BRange (c :: rest)) →
     ch c = ch (client s) → step (Trigger j) σ' = None) ∧
  (∀ k sk m c rest,
     sessions σ' !! k = Some sk → hpc sk = RBroadcast m (BRange (c :: rest)) →
     ch c = ch (client s) → step (Handler k) σ' = None).
Proof.
  intros Hrun Hi Hst Hq Hfull Hrun'.
  pose proof (reachable_wf _ _ Hrun) as Hwf.
  pose proof (reg_run _ _ _ wf_init reg_init Hrun) as Hreg.
  pose proof (full_queue_run tr' σ σ' i s q Hwf Hreg Hi Hst Hq Hfull Hrun') as Hq'.
  split_and!; [done| | |].
  - intros m. by eapply chan_send_full.
  - intros j r msg c rest Hj Ht Hc. simpl. unfold broadcastHandler_step.
    rewrite Hj; simpl. rewrite Ht; simpl.
    by rewrite Hc, (chan_send_full _ _ _ _ Hq' Hfull).
  - intros k sk m c rest Hk Hpc Hc. simpl. unfold_handler.
    rewrite Hk; simpl. rewrite Hpc; simpl.
    by rewrite Hc, (chan_send_full _ _ _ _ Hq' Hfull).
Qed.

Lemma stuck_client_blocks_broadcast_witness :
  ∃ σ σ', run dead_client init = Some σ ∧
    run (Accept [] :: connect 1) σ = Some σ' ∧
    clients σ' = [client0; client1] ∧
    chans σ' !! 0 = Some (mkChan (replicate 100 msg_x) 100) ∧
    requests σ' !! 100
    = Some (mkRequest "/broadcast/y" (TBroadcast "y" (BRange [client0])) "") ∧
    step (Trigger 100) σ' = None.
Proof.
  eexists _, _. repeat (split; [vm_compute; reflexivity|]).
  edestruct stuck_client_blocks_broadcast
    with (tr := dead_client) (i := 0) (s := mkSession 0 client0 RAck WDone)
         (q := mkChan (replicate 100 msg_x) 100) (tr' := Accept [] :: connect 1)
    as (_ & _ & Hreq & _).
  - vm_compute; reflexivity.
  - reflexivity.
  - reflexivity.
  - reflexivity.
  - vm_compute. lia.
  - vm_compute; reflexivity.
  - apply (Hreq 100 (mkRequest "/broadcast/y" (TBroadcast "y" (BRange [client0])) "")
             "y" client0 []); reflexivity.
Defined.

(** ** From the request to the connection *)

Lemma trigger_run σ j r text :
  requests σ !! j = Some r →
  tpc r = TRead →
  readMsgFromRequest (path r) = Some text →
  NoDup (ch <$> clients σ) →
  room (clients σ) (chans σ) →
  ∃ chs',
    run (repeat (Trigger j) (4 + length (clients σ))) σ
    = Some (mkState (clients σ) (conns σ) chs' (closes σ) (sessions σ)
              (<[j := mkRequest (path r) TDone (response r +:+ "Broadcasting " +:+ text)]>
                 (requests σ))
              (console σ ++ [LBroadcasting (mkMessage "Server" text)])) ∧
    delivered (mkMessage "Server" text) (clients σ) (chans σ) chs'.
Proof.
  intros Hj Ht Hread Hnd Hroom.
  set (r1 := mkRequest (path r) (TBroadcast text BEnter) (response r)).
  set (σ1 := set_tpc j r (TBroadcast text BEnter) σ).
  assert (step (Trigger j) σ = Some σ1) as Hs1.
  { simpl. unfold broadcastHandler_step. rewrite Hj; simpl. by rewrite Ht, Hread. }
  assert (requests σ1 !! j = Some r1) as Hj1.
  { simpl. apply list_lookup_insert_eq. by eapply lookup_lt_Some. }
  set (r2 := mkRequest (path r) (TBroadcast text (BRange (clients σ))) (response r)).
  set (σ2 := set_tpc j r1 (TBroadcast text (BRange (clients σ)))
               (print (LBroadcasting (mkMessage "Server" text)) σ1)).
  assert (step (Trigger j) σ1 = Some σ2) as Hs2.
  { simpl. unfold broadcastHandler_step. by rewrite Hj1. }
  assert (requests σ2 !! j = Some r2) as Hj2.
  { simpl. rewrite list_insert_insert_eq. apply list_lookup_insert_eq. by eapply lookup_lt_Some. }
  destruct (trigger_range (clients σ) σ2 j r2 text Hj2 eq_refl Hnd Hroom) as (chs' & Hrun & Hdel).
  exists chs'. split; [|done].
  replace (4 + length (clients σ)) with (2 + (S (length (clients σ)) + 1)) by lia.
  rewrite !repeat_app, run_app.
  change (repeat (Trigger j) 2) with [Trigger j; Trigger j].
  rewrite (run_cons _ _ _ _ Hs1), (run_cons _ _ _ _ Hs2).
  change (run [] σ2) with (Some σ2). cbn [mbind option_bind].
  rewrite run_app, Hrun. simpl.
  unfold broadcastHandler_step; simpl. rewrite !list_insert_insert_eq.
  rewrite list_lookup_insert_eq by by eapply lookup_lt_Some. simpl.
  by rewrite list_insert_insert_eq.
Qed.

(** X10.  In a state the program reaches where no registered queue is
    full, a request whose path is in bounds, served to its end, followed
    by the write loop of a registered listening client run on its own,
    puts on the connection of that client what was on its queue, in
    order, and then the message with author "Server" and the body of
    the path; the queue is empty and the request has its confirmation. *)
Theorem triggered_message_reaches_connection tr σ j r text i s q cn b :
  run tr init = Some σ →
  requests σ !! j = Some r → tpc r = TRead →
  readMsgFromRequest (path r) = Some text →
  none_full σ = true →
  sessions σ !! i = Some s → wpc s = WSelect → reader_sending (hpc s) = false →
  client s ∈ clients σ →
  chans σ !! ch (client s) = Some q →
  conns σ !! connection (client s) = Some cn →
  ∃ σ',
    run (repeat (Trigger j) (4 + length (clients σ))
         ++ repeat (Writer i b) (2 * S (length (buf q)))) σ = Some σ' ∧
    conns σ' !! connection (client s)
    = Some (mkConn (incoming cn) (sent cn ++ buf q ++ [mkMessage "Server" text]) (closed cn)) ∧
    chans σ' !! ch (client s) = Some (mkChan [] (cap q)) ∧
    requests σ' !! j
    = Some (mkRequest (path r) TDone (response r +:+ "Broadcasting " +:+ text)).
Proof.
  intros Hreach Hj Ht Hread Hnf Hi Hw Hrs Hin Hq Hcn.
  pose proof (reachable_registry _ _ Hreach) as Hnd.
  pose proof (reachable_room _ _ Hreach Hnf) as Hroom.
  destruct (trigger_run σ j r text Hj Ht Hread Hnd Hroom) as (chs' & Hrun & Hdel & _).
  match type of Hrun with _ = Some ?x => set (σ1 := x) in * end.
  pose proof (Hdel _ _ Hin Hq) as Hq1.
  destruct (listenToWrite_drains_queue (buf q ++ [mkMessage "Server" text]) σ1 i b s
              (enqueue (mkMessage "Server" text) q) cn)
    as (σ' & Hrun' & Heq & _); try done.
  exists σ'. split_and!.
  - rewrite run_app, Hrun. cbn [mbind option_bind].
    rewrite <-Hrun'. f_equal. f_equal. rewrite length_app. simpl. lia.
  - rewrite Heq. simpl. apply list_lookup_insert_eq. by eapply lookup_lt_Some.
  - rewrite Heq. simpl. apply list_lookup_insert_eq. by eapply lookup_lt_Some.
  - rewrite Heq. simpl. apply list_lookup_insert_eq. by eapply lookup_lt_Some.
Qed.

Lemma triggered_message_reaches_connection_witness :
  ∃ σ σ', run ping_trace init = Some σ ∧
    run (repeat (Trigger 0) 5 ++ repeat (Writer 0 false) 2) σ = Some σ' ∧
    conns σ' !! 0 = Some (mkConn [] [greeting; mkMessage "Server" "ping"] 0) ∧
    chans σ' !! 0 = Some (mkChan [] 100) ∧
    requests σ' !! 0 = Some (mkRequest "/broadcast/ping" TDone "Broadcasting ping").
Proof.
  destruct (triggered_message_reaches_connection ping_trace
              (mkState [client0] [mkConn [] [greeting] 0] [mkChan [] 100] 1
                 [mkSession 0 client0 RSelect WSelect]
                 [mkRequest "/broadcast/ping" TRead ""] [LListening])
              0 (mkRequest "/broadcast/ping" TRead "") "ping"
              0 (mkSession 0 client0 RSelect WSelect) (mkChan [] 100)
              (mkConn [] [greeting] 0) false)
    as (σ' & Hrun & Hc & Hq & Hr);
    [vm_compute; reflexivity|reflexivity..|by apply list_elem_of_singleton
    |reflexivity|reflexivity|].
  eexists _, σ'. split; [vm_compute; reflexivity|]. by split_and!.
Defined.

Lemma reader_run σ i s cn m rest :
  sessions σ !! i = Some s →
  hpc s = RSelect →
  writer_sending (wpc s) = false →
  conns σ !! connection (client s) = Some cn →
  incoming cn = RecvOk m :: rest →
  NoDup (ch <$> clients σ) →
  room (clients σ) (chans σ) →
  ∃ chs',
    run (repeat (Handler i) (3 + length (clients σ))) σ
    = Some (mkState (clients σ)
              (<[connection (client s) := mkConn rest (sent cn) (closed cn)]> (conns σ))
              chs' (closes σ) (sessions σ) (requests σ)
              (console σ ++ [LReceived m; LBroadcasting m])) ∧
    delivered m (clients σ) (chans σ) chs'.
Proof.
  intros Hi Hpc Hws Hcn Hin Hnd Hroom.
  assert (mkSession (ws s) (client s) RSelect (wpc s) = s) as Hs.
  { destruct s; simpl in *; by subst. }
  set (s1 := mkSession (ws s) (client s) (RBroadcast m BEnter) (wpc s)).
  set (σ1 := set_pcs i s (RBroadcast m BEnter) (wpc s)
               (print (LReceived m)
                  (set_conns (<[connection (client s) := mkConn rest (sent cn) (closed cn)]>
                                (conns σ)) σ))).
  assert (step (Handler i) σ = Some σ1) as Hs1.
  { simpl. unfold_handler. rewrite Hi; simpl. rewrite Hpc, Hws.
    unfold JSON_Receive. rewrite Hcn; simpl. by rewrite Hin. }
  assert (sessions σ1 !! i = Some s1) as Hi1.
  { simpl. apply list_lookup_insert_eq. by eapply lookup_lt_Some. }
  set (s2 := mkSession (ws s) (client s) (RBroadcast m (BRange (clients σ))) (wpc s)).
  set (σ2 := set_pcs i s1 (RBroadcast m (BRange (clients σ))) (wpc s)
               (print (LBroadcasting m) σ1)).
  assert (step (Handler i) σ1 = Some σ2) as Hs2.
  { simpl. unfold_handler. by rewrite Hi1. }
  assert (sessions σ2 !! i = Some s2) as Hi2.
  { simpl. rewrite list_insert_insert_eq. apply list_lookup_insert_eq. by eapply lookup_lt_Some. }
  destruct (handler_range (clients σ) σ2 i s2 m Hi2 eq_refl Hnd Hroom) as (chs' & Hrun & Hdel).
  exists chs'. split; [|done].
  replace (3 + length (clients σ)) with (2 + S (length (clients σ))) by lia.
  rewrite repeat_app, run_app.
  change (repeat (Handler i) 2) with [Handler i; Handler i].
  rewrite (run_cons _ _ _ _ Hs1), (run_cons _ _ _ _ Hs2).
  change (run [] σ2) with (Some σ2). cbn [mbind option_bind].
  rewrite Hrun. unfold set_pcs, set_sessions, set_chans. simpl.
  rewrite !list_insert_insert_eq, Hs. rewrite (list_insert_id _ _ _ Hi).
  by rewrite <-app_assoc.
Qed.

(** X11.  In a state the program reaches where no registered queue is
    full, a message decoded by the read loop of one client, broadcast to
    its end, followed by the write loop of another registered listening
    client run on its own, puts on the connection of that other client
    what was on its queue, in order, and then the message as it is. *)
Theorem client_message_reaches_other_connection tr σ i s cn m rest k sk q cnk b :
  run tr init = Some σ →
  sessions σ !! i = Some s → hpc s = RSelect → wpc s ≠ WParked →
  conns σ !! connection (client s) = Some cn →
  incoming cn = RecvOk m :: rest →
  none_full σ = true →
  k ≠ i →
  sessions σ !! k = Some sk → wpc sk = WSelect → reader_sending (hpc sk) = false →
  client sk ∈ clients σ →
  chans σ !! ch (client sk) = Some q →
  conns σ !! connection (client sk) = Some cnk →
  ∃ σ',
    run (repeat (Handler i) (3 + length (clients σ))
         ++ repeat (Writer k b) (2 * S (length (buf q)))) σ = Some σ' ∧
    conns σ' !! connection (client sk)
    = Some (mkConn (incoming cnk) (sent cnk ++ buf q ++ [m]) (closed cnk)) ∧
    chans σ' !! ch (client sk) = Some (mkChan [] (cap q)).
Proof.
  intros Hreach Hi Hpc Hw Hcn Hin Hnf Hne Hk Hwk Hrk Hink Hq Hcnk.
  pose proof (reachable_registry _ _ Hreach) as Hnd.
  pose proof (reachable_room _ _ Hreach Hnf) as Hroom.
  pose proof (reachable_wf _ _ Hreach) as Hwf.
  destruct (wf_session _ _ _ Hwf Hi) as (? & ? & [_ Hci _ _ _ _ _ _ _ _]).
  destruct (wf_session _ _ _ Hwf Hk) as (? & ? & [_ Hck _ _ _ Hwrk _ _ _ _]).
  assert (connection (client s) = i) as Ei by (apply Hci; by rewrite Hpc).
  assert (connection (client sk) = k) as Ek.
  { apply Hck. intros E. rewrite E in Hwrk. rewrite Hwrk in Hwk; done. }
  assert (writer_sending (wpc s) = false) as Hws by by destruct (wpc s).
  destruct (reader_run σ i s cn m rest Hi Hpc Hws Hcn Hin Hnd Hroom) as (chs' & Hrun & Hdel & _).
  match type of Hrun with _ = Some ?x => set (σ1 := x) in * end.
  pose proof (Hdel _ _ Hink Hq) as Hq1.
  destruct (listenToWrite_drains_queue (buf q ++ [m]) σ1 k b sk (enqueue m q) cnk)
    as (σ' & Hrun' & Heq & _); try done.
  { simpl. rewrite list_lookup_insert_ne; [done|]. congruence. }
  exists σ'. split_and!.
  - rewrite run_app, Hrun. cbn [mbind option_bind].
    rewrite <-Hrun'. f_equal. f_equal. rewrite length_app. simpl. lia.
  - rewrite Heq. simpl. apply list_lookup_insert_eq.
    rewrite length_insert. by eapply lookup_lt_Some.
  - rewrite Heq. simpl. apply list_lookup_insert_eq. by eapply lookup_lt_Some.
Qed.

Lemma client_message_reaches_other_connection_witness :
  ∃ σ σ', run chat_trace init = Some σ ∧
    clients σ = [client0; client1] ∧
    run (repeat (Handler 0) 5 ++ repeat (Writer 1 false) 2) σ = Some σ' ∧
    conns σ' !! 1 = Some (mkConn [] [greeting; msg_hi] 0) ∧
    chans σ' !! 1 = Some (mkChan [] 100).
Proof.
  destruct (client_message_reaches_other_connection chat_trace
              (mkState [client0; client1]
                 [mkConn [RecvOk msg_hi] [greeting] 0; mkConn [] [greeting] 0]
                 [mkChan [] 100; mkChan [] 100] 2
                 [mkSession 0 client0 RSelect WSelect; mkSession 1 client1 RSelect WSelect]
                 [] [LListening; LListening])
              0 (mkSession 0 client0 RSelect WSelect) (mkConn [RecvOk msg_hi] [greeting] 0)
              msg_hi [] 1 (mkSession 1 client1 RSelect WSelect) (mkChan [] 100)
              (mkConn [] [greeting] 0) false)
    as (σ' & Hrun & Hc & Hq);
    [vm_compute; reflexivity|reflexivity|reflexivity|discriminate|reflexivity|reflexivity
    |reflexivity|lia|reflexivity|reflexivity|reflexivity| |reflexivity|reflexivity|].
  { apply elem_of_cons. right. by apply list_elem_of_singleton. }
  eexists _, σ'. split; [vm_compute; reflexivity|]. by split_and!.
Defined.
